(** * Newton fractal renderer (main.cpp): embedding and verification

    The program colours every pixel of a 512x512 image by running Newton's
    method for z^n - 1 on the complex number the pixel stands for.  This
    development embeds the C++ functions of [main.cpp] and settles the
    statements of the specification against them.

    Numbers are modelled as the code has them:
    - [float] is IEEE-754 binary32 and [double] is binary64, both as
      [spec_float] values with the operations of [SpecFloat] (round to
      nearest, ties to even);
    - [std::complex<float>] is a pair of binary32 values; its transcendental
      and composite operations ([std::pow], [std::abs], [operator*],
      [operator/]) belong to the C++ standard library and are taken through
      the interface [StdComplex];
    - [unsigned] wraps modulo 2^32 and [std::size_t] modulo 2^64;
    - vectors are lists, read with [!!] and written with [<[i:=x]>]; an access
      outside the vector has no defined result and yields [None]. *)

From Stdlib Require Import ZArith QArith Lia Lqa Bool SpecFloat.
From Stdlib Require String.
From stdpp Require Import base option list.

Local Open Scope Z_scope.

(** ** IEEE-754 arithmetic of the two C++ floating-point types *)

Module IEEE.

Definition float := spec_float.
Definition double := spec_float.

Definition prec32 : Z := 24.
Definition emax32 : Z := 128.
Definition prec64 : Z := 53.
Definition emax64 : Z := 1024.

Definition valid32 (x : float) : bool := valid_binary prec32 emax32 x.

Definition fadd : float -> float -> float := SFadd prec32 emax32.
Definition fsub : float -> float -> float := SFsub prec32 emax32.
Definition fmul : float -> float -> float := SFmul prec32 emax32.
Definition fdiv : float -> float -> float := SFdiv prec32 emax32.
Definition fsqrt : float -> float := SFsqrt prec32 emax32.

Definition dadd : double -> double -> double := SFadd prec64 emax64.
Definition dsub : double -> double -> double := SFsub prec64 emax64.
Definition dmul : double -> double -> double := SFmul prec64 emax64.
Definition ddiv : double -> double -> double := SFdiv prec64 emax64.

(** Comparisons: [==], [<], [<=]; all are false on NaN. *)
Definition eqb (x y : spec_float) : bool := SFeqb x y.
Definition ltb (x y : spec_float) : bool := SFltb x y.
Definition leb (x y : spec_float) : bool := SFleb x y.

(** Integer to floating point (exact when the integer fits the mantissa). *)
Definition float_of_Z (k : Z) : float := binary_normalize prec32 emax32 k 0 false.
Definition double_of_Z (k : Z) : double := binary_normalize prec64 emax64 k 0 false.

(** [float] to [double]: the value is kept, the mantissa is re-aligned to
    53 bits. *)
Definition to_double (x : float) : double :=
  match x with
  | S754_finite s m e => binary_round prec64 emax64 s m e
  | _ => x
  end.

(** [double] to [float]: rounded to the nearest binary32 value. *)
Definition to_float (x : double) : float :=
  match x with
  | S754_finite s m e => binary_round prec32 emax32 s m e
  | _ => x
  end.

(** A decimal literal [p/q] of type [double]: both [p] and [q] are small
    integers, so the correctly rounded quotient is the literal's value. *)
Definition dlit (p q : Z) : double := ddiv (double_of_Z p) (double_of_Z q).

Definition is_finite (x : spec_float) : bool :=
  match x with S754_finite _ _ _ | S754_zero _ => true | _ => false end.

End IEEE.

(** ** Viewport transform: [zoom] and the navigation part of the display loop

    The arithmetic of [zoom] and of the key handling mixes [float] (the fields
    of [ispc::area], the parameter [factor]) and [double] (the literals [2.0],
    [0.9], [1.1], [0.1] and the variable [movement_step]).  The functions are
    written once over the interface [arith] and read at two instances: [ieee],
    which is what the compiled program computes, and [exact], rational
    arithmetic without rounding, which is what the formulas mean. *)

Record arith : Type := {
  flt : Type;
  dbl : Type;
  f_sub : flt -> flt -> flt;
  f_mul : flt -> flt -> flt;
  f_lt : flt -> flt -> bool;
  f_int : Z -> flt;
  widen : flt -> dbl;
  narrow : dbl -> flt;
  d_add : dbl -> dbl -> dbl;
  d_sub : dbl -> dbl -> dbl;
  d_mul : dbl -> dbl -> dbl;
  d_div : dbl -> dbl -> dbl;
  d_lit : Z -> Z -> dbl
}.

Definition ieee : arith := {|
  flt := IEEE.float;
  dbl := IEEE.double;
  f_sub := IEEE.fsub;
  f_mul := IEEE.fmul;
  f_lt := IEEE.ltb;
  f_int := IEEE.float_of_Z;
  widen := IEEE.to_double;
  narrow := IEEE.to_float;
  d_add := IEEE.dadd;
  d_sub := IEEE.dsub;
  d_mul := IEEE.dmul;
  d_div := IEEE.ddiv;
  d_lit := IEEE.dlit
|}.

Definition Qltb (x y : Q) : bool := negb (Qle_bool y x).

Definition exact : arith := {|
  flt := Q;
  dbl := Q;
  f_sub := Qminus;
  f_mul := Qmult;
  f_lt := Qltb;
  f_int := inject_Z;
  widen := fun x => x;
  narrow := fun x => x;
  d_add := Qplus;
  d_sub := Qminus;
  d_mul := Qmult;
  d_div := Qdiv;
  d_lit := fun p q => Qmake p (Z.to_pos q)
|}.

Section Viewport.

Variable A : arith.

(** Modelled from the spec: [ispc::area] is declared in the generated header
    [newton_ispc.h], which is not among the sources.  [main.cpp] names its four
    fields; their order in the initialiser [{-2.0f, 2.0f, -2.0f, 2.0f}] is the
    specification's (lower_x, upper_x, lower_y, upper_y).  The fields are
    [float]: line 100 adds and multiplies them with [std::complex<float>]. *)
Record area : Type := {
  lower_x : flt A;
  upper_x : flt A;
  lower_y : flt A;
  upper_y : flt A
}.

(** The literal [2.0] of lines 36-45. *)
Definition two : dbl A := d_lit A 2 1.

(** [zoom], lines 33-46. *)
Definition zoom (a : area) (factor : flt A) : area :=
  let x_range := f_sub A (upper_x a) (lower_x a) in
  let x_center := d_add A (widen A (lower_x a)) (d_div A (widen A x_range) two) in
  let lx := narrow A (d_sub A x_center (d_div A (widen A (f_mul A x_range factor)) two)) in
  let ux := narrow A (d_add A x_center (d_div A (widen A (f_mul A x_range factor)) two)) in
  let a1 := {| lower_x := lx; upper_x := ux; lower_y := lower_y a; upper_y := upper_y a |} in
  let y_range := f_sub A (upper_y a1) (lower_y a1) in
  let y_center := d_add A (widen A (lower_y a1)) (d_div A (widen A y_range) two) in
  let ly := narrow A (d_sub A y_center (d_div A (widen A (f_mul A y_range factor)) two)) in
  let uy := narrow A (d_add A y_center (d_div A (widen A (f_mul A y_range factor)) two)) in
  {| lower_x := lower_x a1; upper_x := upper_x a1; lower_y := ly; upper_y := uy |}.

(** The keys polled by one pass of the display loop. *)
Record keys : Type := {
  KEY_UP : bool;
  KEY_DOWN : bool;
  KEY_W : bool;
  KEY_S : bool;
  KEY_A : bool;
  KEY_D : bool
}.

(** The navigation state of [show_image_on_screen]: the viewport and the
    local variable [movement_step]. *)
Record nav : Type := {
  target_area : area;
  movement_step : dbl A
}.

Definition zoom_in_factor : dbl A := d_lit A 9 10.
Definition zoom_out_factor : dbl A := d_lit A 11 10.

(** [target_area.lower_y -= movement_step] and its three siblings: the
    [float] field is widened, the step applied in [double], the result
    narrowed back. *)
Definition minus_step (x : flt A) (step : dbl A) : flt A :=
  narrow A (d_sub A (widen A x) step).
Definition plus_step (x : flt A) (step : dbl A) : flt A :=
  narrow A (d_add A (widen A x) step).

Definition on_key (k : bool) (f : nav -> nav) (s : nav) : nav :=
  if k then f s else s.

Definition do_zoom (factor : dbl A) (s : nav) : nav :=
  {| target_area := zoom (target_area s) (narrow A factor);
     movement_step := d_mul A (movement_step s) factor |}.

Definition move_y (op : flt A -> dbl A -> flt A) (s : nav) : nav :=
  let a := target_area s in
  {| target_area :=
       {| lower_x := lower_x a; upper_x := upper_x a;
          lower_y := op (lower_y a) (movement_step s);
          upper_y := op (upper_y a) (movement_step s) |};
     movement_step := movement_step s |}.

Definition move_x (op : flt A -> dbl A -> flt A) (s : nav) : nav :=
  let a := target_area s in
  {| target_area :=
       {| lower_x := op (lower_x a) (movement_step s);
          upper_x := op (upper_x a) (movement_step s);
          lower_y := lower_y a; upper_y := upper_y a |};
     movement_step := movement_step s |}.

(** One pass of the [while] loop, lines 157-193: the six [if]s in order. *)
Definition handle_keys (k : keys) (s : nav) : nav :=
  let s := on_key (KEY_UP k) (do_zoom zoom_in_factor) s in
  let s := on_key (KEY_DOWN k) (do_zoom zoom_out_factor) s in
  let s := on_key (KEY_W k) (move_y minus_step) s in
  let s := on_key (KEY_S k) (move_y plus_step) s in
  let s := on_key (KEY_A k) (move_x minus_step) s in
  on_key (KEY_D k) (move_x plus_step) s.

(** The state on entry of the loop: [main] passes the viewport
    [{-2.0f, 2.0f, -2.0f, 2.0f}], and [movement_step] starts at [0.1]. *)
Definition initial_nav : nav :=
  {| target_area :=
       {| lower_x := f_int A (-2); upper_x := f_int A 2;
          lower_y := f_int A (-2); upper_y := f_int A 2 |};
     movement_step := d_lit A 1 10 |}.

(** The state after the passes whose key states are listed in [ks]. *)
Definition navigate (ks : list keys) : nav :=
  fold_left (fun s k => handle_keys k s) ks initial_nav.

(** The invariant of the data model: both extents are positive. *)
Definition positive_extent (a : area) : Prop :=
  f_lt A (lower_x a) (upper_x a) = true /\ f_lt A (lower_y a) (upper_y a) = true.

End Viewport.

Arguments lower_x {A} _.
Arguments upper_x {A} _.
Arguments lower_y {A} _.
Arguments upper_y {A} _.
Arguments target_area {A} _.
Arguments movement_step {A} _.

Definition no_key : keys :=
  {| KEY_UP := false; KEY_DOWN := false; KEY_W := false;
     KEY_S := false; KEY_A := false; KEY_D := false |}.

Definition only_down : keys :=
  {| KEY_UP := false; KEY_DOWN := true; KEY_W := false;
     KEY_S := false; KEY_A := false; KEY_D := false |}.

Definition only_up : keys :=
  {| KEY_UP := true; KEY_DOWN := false; KEY_W := false;
     KEY_S := false; KEY_A := false; KEY_D := false |}.

(** ** Colours and complex numbers *)

(** raylib's [Color]: four [unsigned char] channels. *)
Record Color : Type := { r : Z; g : Z; b : Z; a : Z }.

(** [ispc::color], declared in [newton_ispc.h], as [main.cpp] uses it: the
    initialisers of [set_colors] give it four components that hold 255, of
    which [to_raylib] passes the first three, [r], [g] and [b], to [unsigned
    char] fields without a conversion. *)
Record color : Type := { cr : Z; cg : Z; cb : Z; ca : Z }.

(** [ispc::float2], declared in [newton_ispc.h], as [main.cpp] uses it: the
    array [v[2]] of [float]. *)
Record float2 : Type := { v0 : IEEE.float; v1 : IEEE.float }.

(** [std::complex<float>]. *)
Record complex : Type := { re : IEEE.float; im : IEEE.float }.

(** raylib's constant [DARKGREEN]. *)
Definition DARKGREEN : Color := {| r := 0; g := 117; b := 44; a := 255 |}.

(** [to_raylib], lines 58-61. *)
Definition to_raylib (clr : color) : Color :=
  {| r := cr clr; g := cg clr; b := cb clr; a := 255 |}.

(** What [main.cpp] uses of [<complex>] beyond component-wise arithmetic.
    The C++ standard fixes neither the algorithm nor the rounding of these
    functions, only their types. *)
Class StdComplex : Type := {
  cpow : complex -> IEEE.float -> complex;
  cmul : complex -> complex -> complex;
  cdiv : complex -> complex -> complex;
  cabs : complex -> IEEE.float
}.


(** The largest [int]: [main] obtains [n] from [std::atoi], so the tables are
    built for [0 < n <= INT_MAX], and the [int] counters of the loops of
    [calculate_roots] and [set_colors], which stop at [n], do not overflow. *)
Definition INT_MAX : Z := 2 ^ 31 - 1.

Definition size_t (k : Z) : Z := k mod 2 ^ 64.
Definition unsigned (k : Z) : Z := k mod 2 ^ 32.
Definition uint8_t (k : Z) : Z := k mod 2 ^ 8.

(** [for (i = first; i < first + count; ++i) body], threaded through a state
    that an undefined access loses. *)
Fixpoint for_loop {S : Type} (count : nat) (i : Z) (body : Z -> S -> option S) (s : S)
  : option S :=
  match count with
  | O => Some s
  | Datatypes.S count' =>
      match body i s with
      | Some s' => for_loop count' (i + 1) body s'
      | None => None
      end
  end.

(** The same loop for a body without undefined accesses. *)
Fixpoint for_each {S : Type} (count : nat) (i : Z) (body : Z -> S -> S) (s : S) : S :=
  match count with
  | O => s
  | Datatypes.S count' => for_each count' (i + 1) body (body i s)
  end.

Section Kernel.

Context {lib : StdComplex}.

(** raylib's [ColorBrightness(Color, float)]. *)
Variable ColorBrightness : Color -> IEEE.float -> Color.

Import IEEE.

(** [std::complex<float>{x}] and [std::complex<float>(x, y)]. *)
Definition complex_of (x y : float) : complex := {| re := x; im := y |}.

(** [operator-] and [operator-=] on two complex values. *)
Definition csub (x y : complex) : complex :=
  {| re := fsub (re x) (re y); im := fsub (im x) (im y) |}.

(** [function], lines 48-51. *)
Definition function (z : complex) (n : Z) : complex :=
  csub (cpow z (float_of_Z n)) (complex_of (float_of_Z 1) (float_of_Z 0)).

(** [derivative], lines 53-56; [n-1] is computed in [std::size_t]. *)
Definition derivative (z : complex) (n : Z) : complex :=
  cmul (complex_of (float_of_Z n) (float_of_Z 0))
       (cpow z (float_of_Z (size_t (n - 1)))).

Definition max_iteration : Z := 42.

(** [constexpr auto tolerance = 0.000001], a [double]. *)
Definition tolerance : double := dlit 1 1000000.

(** [(-2.0*i)/max_iteration + 0.5], line 78, where [i] is the index of the
    inner loop; the [double] is narrowed to the [float] parameter of
    [ColorBrightness]. *)
Definition brightness_factor (i : nat) : float :=
  to_float
    (dadd (ddiv (dmul (double_of_Z (-2)) (double_of_Z (Z.of_nat i)))
                (double_of_Z max_iteration))
          (dlit 1 2)).

(** The test of line 76 for one root. *)
Definition reached (z : complex) (root : float2) : bool :=
  ltb (to_double (cabs (csub z (complex_of (v0 root) (v1 root))))) tolerance.

(** The inner loop, lines 73-81: the index of the root at which it returns,
    if it does. *)
Fixpoint scan_roots (z : complex) (i : nat) (roots : list float2) : option nat :=
  match roots with
  | [] => None
  | root :: rest =>
      if reached z root then Some i else scan_roots z (Datatypes.S i) rest
  end.

(** How the outer loop of [calculate_single_pixel] is left. *)
Inductive leave : Type :=
| at_root (iteration : nat) (root : nat)
| at_break (iteration : nat)
| at_end.

Section Loop.

Variable roots : list float2.

Let n : Z := Z.of_nat (length roots).

(** Line 70. *)
Definition derivative_small (z : complex) : bool :=
  leb (to_double (cabs (derivative z n))) tolerance.

(** Line 71. *)
Definition newton_update (z : complex) : complex :=
  csub z (cdiv (function z n) (derivative z n)).

(** The outer loop, lines 66-82, with [budget] passes left to run, the
    next one being pass [i]. *)
Fixpoint newton (budget : nat) (i : nat) (z : complex) : leave :=
  match budget with
  | O => at_end
  | Datatypes.S budget' =>
      if derivative_small z then at_break i
      else
        let z' := newton_update z in
        match scan_roots z' 0 roots with
        | Some j => at_root i j
        | None => newton budget' (Datatypes.S i) z'
        end
  end.

End Loop.

(** [calculate_single_pixel], lines 63-84.  Reading [colors[i]] past the
    end of [colors] is undefined. *)
Definition calculate_single_pixel (z : complex) (roots : list float2)
           (colors : list color) : option Color :=
  match newton roots (Z.to_nat max_iteration) 0 z with
  | at_root _ i =>
      match colors !! i with
      | Some clr => Some (ColorBrightness (to_raylib clr) (brightness_factor i))
      | None => None
      end
  | at_break _ | at_end => Some DARKGREEN
  end.

(** [image_data], lines 19-31; [width*height*4] is an [unsigned] product. *)
Record image_data : Type := {
  width : Z;
  height : Z;
  pixels : list Z
}.

Definition new_image_data (w h : Z) : image_data :=
  {| width := w; height := h;
     pixels := replicate (Z.to_nat (unsigned (w * h * 4))) 0 |}.

(** Lines 92-100 for one pixel: the complex number of pixel [(x, y)]. *)
Definition pixel_to_complex (target : area ieee) (x y w h : Z) : complex :=
  let fraction_x := fdiv (float_of_Z x) (float_of_Z w) in
  let range_x := fsub (upper_x target) (lower_x target) in
  let zx := fadd (fmul fraction_x range_x) (lower_x target) in
  let fraction_y := fdiv (float_of_Z y) (float_of_Z h) in
  let range_y := fsub (upper_y target) (lower_y target) in
  let zy := fadd (fmul fraction_y range_y) (lower_y target) in
  (* zy*1if scales both parts of (0, 1); zx + _ adds to the real part *)
  {| re := fadd (fmul (float_of_Z 0) zy) zx; im := fmul (float_of_Z 1) zy |}.

(** [v[i] = x] on a byte vector. *)
Definition store (i : Z) (x : Z) (v : list Z) : option (list Z) :=
  if decide (Z.to_nat i < length v)%nat then Some (<[Z.to_nat i := x]> v) else None.

(** Lines 102-107: the four stores of one pixel. *)
Definition write_pixel (w : Z) (x y : Z) (c : Color) (buf : list Z) : option (list Z) :=
  let offset := size_t (size_t (y * w + x) * 4) in
  buf ← store offset (r c) buf;
  buf ← store (size_t (offset + 1)) (g c) buf;
  buf ← store (size_t (offset + 2)) (b c) buf;
  store (size_t (offset + 3)) (a c) buf.

(** [calculate_pixels], lines 86-110. *)
Definition calculate_pixels (img_data : image_data) (target : area ieee)
           (roots : list float2) (colors : list color) : option image_data :=
  let w := width img_data in
  let h := height img_data in
  buf ← for_loop (Z.to_nat h) 0 (fun y buf =>
           for_loop (Z.to_nat w) 0 (fun x buf =>
             let z := pixel_to_complex target x y w h in
             pixel_color ← calculate_single_pixel z roots colors;
             write_pixel w x y pixel_color buf) buf)
         (pixels img_data);
  Some {| width := w; height := h; pixels := buf |}.

End Kernel.

(** ** The colour table *)

(** The five literal entries of [set_colors], lines 127-131. *)
Definition fixed_colors : list color :=
  [ {| cr := 255; cg := 109; cb := 194; ca := 255 |};
    {| cr := 200; cg := 122; cb := 255; ca := 255 |};
    {| cr := 135; cg := 60; cb := 190; ca := 255 |};
    {| cr := 112; cg := 31; cb := 126; ca := 255 |};
    {| cr := 0; cg := 82; cb := 172; ca := 255 |} ].

(** [ispc::color current = {245, 109, 194}]: the component without an
    initialiser is zero, as are the entries [resize] appends. *)
Definition first_current : color := {| cr := 245; cg := 109; cb := 194; ca := 0 |}.
Definition zero_color : color := {| cr := 0; cg := 0; cb := 0; ca := 0 |}.

(** [(c+100)%255] in [int], stored back into an 8-bit component. *)
Definition shift_channel (c : Z) : Z := uint8_t (Z.rem (c + 100) 255).

(** Lines 138-140: the three tests of pass [i] on [current]. *)
Definition advance (i : Z) (current : color) : color :=
  let current :=
    if Z.rem i 3 =? 0
    then {| cr := shift_channel (cr current); cg := cg current; cb := cb current; ca := ca current |}
    else current in
  let current :=
    if Z.rem i 3 =? 1
    then {| cr := cr current; cg := shift_channel (cg current); cb := cb current; ca := ca current |}
    else current in
  if Z.rem i 3 =? 2
  then {| cr := cr current; cg := cg current; cb := shift_channel (cb current); ca := ca current |}
  else current.

(** One pass of the loop of lines 136-142 on the pair of [current] and
    [result]; [i] is below [result.size()], so the store is in range. *)
Definition set_colors_pass (i : Z) (s : color * list color) : color * list color :=
  let current := advance i (fst s) in
  (current, <[Z.to_nat i := current]> (snd s)).

(** [set_colors], lines 123-144. *)
Definition set_colors (n : nat) : list color :=
  let result := resize n zero_color fixed_colors in
  snd (for_each (n - 5) 5 set_colors_pass (first_current, result)).

(** ** The root table *)

(** [std::numbers::pi_v<float>]: the binary32 number nearest to pi. *)
Definition pi_f : IEEE.float := S754_finite false 13176795 (-22).

(** The argument of [std::exp] in line 117 for index [i]: the [float]
    [(2.0f*pi*i)/n] times the literal [1if], which scales both parts of
    [(0, 1)]. *)
Definition root_argument (i n : Z) : complex :=
  let theta :=
    IEEE.fdiv (IEEE.fmul (IEEE.fmul (IEEE.float_of_Z 2) pi_f) (IEEE.float_of_Z i))
              (IEEE.float_of_Z n) in
  {| re := IEEE.fmul (IEEE.float_of_Z 0) theta; im := IEEE.fmul (IEEE.float_of_Z 1) theta |}.

Definition float2_of (z : complex) : float2 := {| v0 := re z; v1 := im z |}.

(** [calculate_roots], lines 112-121, over the library's [std::exp] on
    [std::complex<float>]. *)
Definition calculate_roots (cexp : complex -> complex) (n : nat) : list float2 :=
  let result := replicate n {| v0 := IEEE.float_of_Z 0; v1 := IEEE.float_of_Z 0 |} in
  for_each n 0
    (fun i result => <[Z.to_nat i := float2_of (cexp (root_argument i (Z.of_nat n)))]> result)
    result.

(** ** Reference instances of the library functions

    One admissible implementation of the [<complex>] operations (the textbook
    formulas, each step rounded to binary32) and raylib's [ColorBrightness];
    they make the embedding executable on concrete inputs. *)

Module Reference.

Import IEEE.

Definition one : float := float_of_Z 1.
Definition zero : float := float_of_Z 0.

Definition mul (x y : complex) : complex :=
  {| re := fsub (fmul (re x) (re y)) (fmul (im x) (im y));
     im := fadd (fmul (re x) (im y)) (fmul (im x) (re y)) |}.

Definition div (x y : complex) : complex :=
  let d := fadd (fmul (re y) (re y)) (fmul (im y) (im y)) in
  {| re := fdiv (fadd (fmul (re x) (re y)) (fmul (im x) (im y))) d;
     im := fdiv (fsub (fmul (im x) (re y)) (fmul (re x) (im y))) d |}.

(** A result outside binary32 cannot occur; the test makes that evident. *)
Definition checked (x : float) : float := if valid32 x then x else S754_nan.

Definition abs (z : complex) : float :=
  checked (fsqrt (fadd (fmul (re z) (re z)) (fmul (im z) (im z)))).

(** The integer a [float] stands for, when it is a non-negative integer. *)
Definition to_count (y : float) : option nat :=
  match y with
  | S754_zero _ => Some O
  | S754_finite false m (Zpos e) => Some (Pos.to_nat (Pos.shiftl m (Npos e)))
  | S754_finite false m Z0 => Some (Pos.to_nat m)
  | S754_finite false m (Zneg e) =>
      if Z.land (Zpos m) (Z.ones (Zpos e)) =? 0
      then Some (Z.to_nat (Z.shiftr (Zpos m) (Zpos e)))
      else None
  | _ => None
  end.

Fixpoint power (z : complex) (k : nat) : complex :=
  match k with
  | O => {| re := one; im := zero |}
  | Datatypes.S k' => mul z (power z k')
  end.

Definition pow (z : complex) (y : float) : complex :=
  match to_count y with
  | Some k => power z k
  | None => {| re := S754_nan; im := S754_nan |}
  end.

#[export] Instance complex_lib : StdComplex :=
  {| cpow := pow; cmul := mul; cdiv := div; cabs := abs |}.

(** [(unsigned char)x] for a [float] in the range of the type. *)
Definition to_uchar (x : float) : Z :=
  match x with
  | S754_finite false m e => uint8_t (Z.shiftl (Zpos m) e)
  | _ => 0
  end.

(** raylib's [ColorBrightness]: clamp the factor to [-1, 1]; a negative
    factor scales the three channels towards black, another one moves them
    towards white; alpha is copied. *)
Definition ColorBrightness (c : Color) (factor : float) : Color :=
  let factor :=
    if ltb one factor then one
    else if ltb factor (float_of_Z (-1)) then float_of_Z (-1) else factor in
  let lighten (x : Z) : Z :=
    if ltb factor zero
    then to_uchar (fmul (float_of_Z x) (fadd one factor))
    else to_uchar (fadd (fmul (fsub (float_of_Z 255) (float_of_Z x)) factor)
                        (float_of_Z x)) in
  {| r := lighten (r c); g := lighten (g c); b := lighten (b c); a := a c |}.

End Reference.

(** ** Notions used to state the properties *)

(** A number of sign [s] that is neither a zero nor a NaN. *)
Definition signed_number (s : bool) (x : spec_float) : Prop :=
  (exists m e, x = S754_finite s m e) \/ x = S754_infinity s.

(** Equal numbers up to the sign of a zero: what [==] accepts on finite
    arguments. *)
Definition alike (x y : spec_float) : Prop :=
  x = y \/ exists s1 s2, x = S754_zero s1 /\ y = S754_zero s2.

(** The four bounds are binary32 values. *)
Definition area_valid (t : area ieee) : Prop :=
  IEEE.valid32 (lower_x t) = true /\ IEEE.valid32 (upper_x t) = true /\
  IEEE.valid32 (lower_y t) = true /\ IEEE.valid32 (upper_y t) = true.

(** The extents [upper - lower], as lines 93 and 97 compute them. *)
Definition range_x (t : area ieee) : IEEE.float := IEEE.fsub (upper_x t) (lower_x t).
Definition range_y (t : area ieee) : IEEE.float := IEEE.fsub (upper_y t) (lower_y t).

(** A viewport with finite bounds and positive extents whose extent along x
    exceeds the largest binary32 number: from [-2^127] to [2^127]. *)
Definition wide_area : area ieee :=
  Build_area ieee (S754_finite true 8388608 104) (S754_finite false 8388608 104)
             (IEEE.float_of_Z (-2)) (IEEE.float_of_Z 2).

(** The viewport the display loop holds after [n] passes with only the
    zoom-out key down. *)
Definition after_zoom_out (n : nat) : area ieee :=
  target_area (navigate ieee (repeat only_down n)).



(** [z] after [k] Newton updates. *)
Fixpoint orbit `{StdComplex} (roots : list float2) (k : nat) (z : complex) : complex :=
  match k with
  | O => z
  | S k' => newton_update roots (orbit roots k' z)
  end.

(** The Newton updates (line 71) performed before the loop is left. *)
Definition updates_done (l : leave) : nat :=
  match l with
  | at_root i _ => S i
  | at_break i => i
  | at_end => Z.to_nat max_iteration
  end.

(** The value of [current] when pass [i] of the loop of [set_colors] has
    stored it; before the first pass, [i = 4]. *)
Definition current_at (i : nat) : color :=
  for_each (i - 4) 5 advance first_current.

(** A buffer of the size the image needs, with indices that fit
    [std::size_t]. *)
Definition image_fits (img : image_data) : Prop :=
  0 <= width img /\ 0 <= height img /\
  width img * height img * 4 < 2 ^ 64 /\
  length (pixels img) = Z.to_nat (width img * height img * 4).

(** The table of the roots of z^2 - 1 as [calculate_roots 2] builds it with a
    correctly rounded [std::exp]: [(1, 0)] and [(-1, sin pi_f)], where
    [pi_f] is the binary32 number nearest to pi. *)
Definition roots_of_2 : list float2 :=
  [ {| v0 := IEEE.float_of_Z 1; v1 := IEEE.float_of_Z 0 |};
    {| v0 := IEEE.float_of_Z (-1); v1 := S754_finite true 12303662 (-47) |} ].

(** The complex number [x + y i] of two small integers. *)
Definition z_of (x y : Z) : complex := complex_of (IEEE.float_of_Z x) (IEEE.float_of_Z y).

(** An 8-bit channel value. *)
Definition channel_ok (x : Z) : Prop := 0 <= x <= 255.

(** One pass changes exactly the channel that [i mod 3] selects. *)
Definition one_channel_step (i : nat) (p c : color) : Prop :=
  ((i mod 3 = 0)%nat ->
     cr c = (cr p + 100) mod 255 /\ cg c = cg p /\ cb c = cb p /\ ca c = ca p) /\
  ((i mod 3 = 1)%nat ->
     cr c = cr p /\ cg c = (cg p + 100) mod 255 /\ cb c = cb p /\ ca c = ca p) /\
  ((i mod 3 = 2)%nat ->
     cr c = cr p /\ cg c = cg p /\ cb c = (cb p + 100) mod 255 /\ ca c = ca p).

(** The colour of the pixel with row-major number [p] in a [w] x [h] image. *)
Definition pixel_color_at `{StdComplex} (ColorBrightness : Color -> IEEE.float -> Color)
           (target : area ieee) (roots : list float2) (colors : list color)
           (w h : Z) (p : Z) : option Color :=
  calculate_single_pixel ColorBrightness
    (pixel_to_complex target (p mod w) (p / w) w h) roots colors.

(** The four bytes of pixel [p] in [buf] are the channels of [c]. *)
Definition holds_color (buf : list Z) (p : Z) (c : Color) : Prop :=
  buf !! Z.to_nat (4 * p) = Some (r c) /\
  buf !! Z.to_nat (4 * p + 1) = Some (g c) /\
  buf !! Z.to_nat (4 * p + 2) = Some (b c) /\
  buf !! Z.to_nat (4 * p + 3) = Some (a c).

(** Pixel [p] of [buf] holds the kernel's colour for it. *)
Definition pixel_stored `{StdComplex} (ColorBrightness : Color -> IEEE.float -> Color)
           (target : area ieee) (roots : list float2) (colors : list color)
           (w h : Z) (buf : list Z) (p : Z) : Prop :=
  exists c, pixel_color_at ColorBrightness target roots colors w h p = Some c /\
            holds_color buf p c.

#[global] Existing Instance Reference.complex_lib.

(** ** The display loop and [main] *)

(** The flag [should_recompute] when line 194 tests it: each of the six key
    tests sets it. *)
Definition should_recompute (k : keys) : bool :=
  KEY_UP k || KEY_DOWN k || KEY_W k || KEY_S k || KEY_A k || KEY_D k.

(** The navigation state after the passes [ks], started in any state. *)
Definition navigate_from {A : arith} (s : nav A) (ks : list keys) : nav A :=
  fold_left (fun s k => handle_keys A k s) ks s.

Section Display.

Context {lib : StdComplex}.
Variable ColorBrightness : Color -> IEEE.float -> Color.

(** raylib's textures and [LoadTextureFromImage].  The [Image result] of
    [main] points at the bytes of [img_data.pixels], so loading it reads the
    buffer as it is at that moment. *)
Variable Texture : Type.
Variable LoadTextureFromImage : image_data -> Texture.

Variable roots : list float2.
Variable colors : list color.

(** What [show_image_on_screen] holds between two passes of its loop. *)
Record display : Type := {
  view : nav ieee;
  image : image_data;
  texture : Texture
}.

(** One pass of the loop, lines 157-199, with [fun] the C++ lambda of lines
    248-251: the keys, then, when one was down, [calculate_pixels] into the
    shared buffer and a texture loaded from it. *)
Definition display_pass (k : keys) (d : display) : option display :=
  let s := handle_keys ieee k (view d) in
  if should_recompute k then
    match calculate_pixels ColorBrightness (image d) (target_area s) roots colors with
    | Some img => Some {| view := s; image := img; texture := LoadTextureFromImage img |}
    | None => None
    end
  else Some {| view := s; image := image d; texture := texture d |}.

(** The passes made until the window is closed, one per entry of [ks]. *)
Fixpoint display_loop (ks : list keys) (d : display) : option display :=
  match ks with
  | [] => Some d
  | k :: ks' =>
      match display_pass k d with
      | Some d' => display_loop ks' d'
      | None => None
      end
  end.

(** [show_image_on_screen], lines 146-214, up to the last pass. *)
Definition show_image_on_screen (img_data : image_data) (target : area ieee)
           (ks : list keys) : option display :=
  display_loop ks
    {| view := {| target_area := target; movement_step := d_lit ieee 1 10 |};
       image := img_data;
       texture := LoadTextureFromImage img_data |}.

End Display.

Arguments view {Texture} _.
Arguments image {Texture} _.
Arguments texture {Texture} _.

(** The C++ branch of [main], lines 226-258, for a valid [n] and the passes
    [ks] of the display loop: tables, image, first rendering, display. *)
Definition main_cpp `{StdComplex} (ColorBrightness : Color -> IEEE.float -> Color)
           {Texture : Type} (LoadTextureFromImage : image_data -> Texture)
           (cexp : complex -> complex) (n : Z) (ks : list keys)
  : option (display Texture) :=
  let roots := calculate_roots cexp (Z.to_nat n) in
  let colors := set_colors (Z.to_nat n) in
  let img_data := new_image_data 512 512 in
  let target := target_area (initial_nav ieee) in
  match calculate_pixels ColorBrightness img_data target roots colors with
  | Some img =>
      show_image_on_screen ColorBrightness Texture LoadTextureFromImage roots colors
        img target ks
  | None => None
  end.

(** What [main] does with its arguments, lines 218-224 and 253: leave with
    -1, or render with one of the two back ends. *)
Inductive branch : Type :=
| exit_minus_1
| run_cpp (n : Z)
| run_ispc (n : Z).

Module Args.

Import String.

Definition cpp_word : string := "C++"%string.

(** [argv] holds the [argc] arguments, the program name first; [atoi] is
    [std::atoi]. *)
Definition main_branch (atoi : string -> Z) (argv : list string) : branch :=
  let argc := Z.of_nat (List.length argv) in
  if argc <? 2 then exit_minus_1
  else
    let n := atoi (nth 1 argv EmptyString) in
    if n <=? 0 then exit_minus_1
    else if (argc =? 3) && String.eqb (nth 2 argv EmptyString) cpp_word
         then run_cpp n
         else run_ispc n.

End Args.

(** The loop of [calculate_single_pixel] keeps going while pass [i] neither breaks
    nor returns, for every [i] below [k]. *)
Definition keeps_going `{StdComplex} (roots : list float2) (z : complex) (k : nat) : Prop :=
  forall i, (i < k)%nat ->
    derivative_small roots (orbit roots i z) = false /\
    scan_roots (orbit roots (S i) z) 0 roots = None.

(** An axis of the viewport with a NaN bound. *)
Definition nan_x (t : area ieee) : Prop := lower_x t = S754_nan \/ upper_x t = S754_nan.
Definition nan_y (t : area ieee) : Prop := lower_y t = S754_nan \/ upper_y t = S754_nan.

(** The number of passes of [set_colors] up to index [i] that moved the red,
    the green and the blue channel. *)
Definition red_moves (i : Z) : Z := i / 3 - 1.
Definition green_moves (i : Z) : Z := (i - 1) / 3 - 1.
Definition blue_moves (i : Z) : Z := (i + 1) / 3 - 1.

(** A component that fits [unsigned char]. *)
Definition color_ok (c : color) : Prop :=
  channel_ok (cr c) /\ channel_ok (cg c) /\ channel_ok (cb c) /\ channel_ok (ca c).



(** ** Values of the embedding on concrete inputs *)

Example float_literals :
  IEEE.to_float (IEEE.dlit 9 10) = S754_finite false 15099494 (-24) /\
  IEEE.to_float (IEEE.dlit 11 10) = S754_finite false 9227469 (-23) /\
  IEEE.float_of_Z 512 = S754_finite false 8388608 (-14) /\
  IEEE.fadd (IEEE.float_of_Z 1) (IEEE.float_of_Z 2) = IEEE.float_of_Z 3.
Proof. vm_compute. repeat split. Qed.

Example brightness_factor_values :
  brightness_factor 0 = S754_finite false 8388608 (-24) /\
  brightness_factor 21 = S754_finite true 8388608 (-24) /\
  IEEE.ltb (brightness_factor 11) (IEEE.float_of_Z 0) = true.
Proof. vm_compute. repeat split. Qed.

Example set_colors_3 : set_colors 3 = take 3 fixed_colors.
Proof. reflexivity. Qed.

Example set_colors_9 :
  drop 5 (set_colors 9)
  = [ {| cr := 245; cg := 109; cb := 39; ca := 0 |};
      {| cr := 90; cg := 109; cb := 39; ca := 0 |};
      {| cr := 90; cg := 209; cb := 39; ca := 0 |};
      {| cr := 90; cg := 209; cb := 139; ca := 0 |} ].
Proof. reflexivity. Qed.

Example zoom_exact_sample :
  lower_x (zoom exact (target_area (initial_nav exact)) (9 # 10)) == - (9 # 5) /\
  upper_x (zoom exact (target_area (initial_nav exact)) (9 # 10)) == 9 # 5.
Proof. split; reflexivity. Qed.

Example kernel_samples :
  newton roots_of_2 42 0 (z_of (-3) 0) = at_root 4 1 /\
  newton roots_of_2 42 0 (z_of 0 1) = at_break 1 /\
  calculate_single_pixel Reference.ColorBrightness (z_of (-3) 0) roots_of_2 (set_colors 2)
  = Some {| r := 224; g := 182; b := 255; a := 255 |} /\
  calculate_single_pixel Reference.ColorBrightness (z_of 0 1) roots_of_2 (set_colors 2)
  = Some DARKGREEN.
Proof. vm_compute. repeat split. Qed.

Example raster_sample :
  calculate_pixels Reference.ColorBrightness (new_image_data 2 2)
    (target_area (initial_nav ieee)) roots_of_2 (set_colors 2)
  = Some {| width := 2; height := 2;
            pixels := [224; 182; 255; 255; 0; 117; 44; 255;
                       224; 182; 255; 255; 0; 117; 44; 255] |}.
Proof. vm_compute. reflexivity. Qed.

(** ** Rounding facts *)

Section Rounding.

Variables prec emax : Z.
Hypothesis prec_pos : 0 < prec.

Lemma iter_pos_iter {A} (f : A -> A) p x : SpecFloat.iter_pos f p x = Pos.iter f x p.
Proof. revert x; induction p; intros x; simpl; rewrite ?IHp, ?Pos.iter_swap; reflexivity. Qed.

Lemma digits2_pos_size p : digits2_pos p = Pos.size p.
Proof. induction p; simpl; rewrite ?IHp; reflexivity. Qed.

Lemma digits2_lower p : 2 ^ (Zpos (digits2_pos p) - 1) <= Zpos p.
Proof.
  rewrite digits2_pos_size.
  pose proof (Pos.size_le p) as H.
  apply Pos2Z.pos_le_pos in H. rewrite Pos2Z.inj_pow in H.
  replace (Zpos (Pos.size p)) with (Z.succ (Zpos (Pos.size p) - 1)) in H by lia.
  rewrite Z.pow_succ_r in H by lia. lia.
Qed.

Lemma shr_1_m mrs : 0 <= shr_m mrs -> shr_m (shr_1 mrs) = Z.div2 (shr_m mrs).
Proof. destruct mrs as [[|[p|p|]|p] rb sb]; simpl; intros; try reflexivity; lia. Qed.

Lemma shr_iter_m p mrs :
  0 <= shr_m mrs -> shr_m (Pos.iter shr_1 mrs p) = Z.shiftr (shr_m mrs) (Zpos p).
Proof.
  intros Hm. induction p using Pos.peano_ind.
  - simpl Pos.iter. rewrite shr_1_m by assumption. apply Z.div2_spec.
  - rewrite Pos.iter_succ, shr_1_m.
    + rewrite IHp, Z.div2_spec, Z.shiftr_shiftr by lia. f_equal; lia.
    + rewrite IHp. apply Z.shiftr_nonneg. assumption.
Qed.

Lemma shiftr_pos_digits p n :
  0 < n < Zpos (digits2_pos p) -> 0 < Z.shiftr (Zpos p) n.
Proof.
  intros Hn. rewrite Z.shiftr_div_pow2 by lia.
  apply Z.div_str_pos. split; [lia|].
  eapply Z.le_trans; [|apply digits2_lower].
  apply Z.pow_le_mono_r; lia.
Qed.

(** [shr_fexp] keeps a positive mantissa positive and the exponent at least
    [emin], when the exponent it is given is at least [emin]. *)
Lemma shr_fexp_pos p e l :
  emin prec emax <= e ->
  let '(mrs, e') := shr_fexp prec emax (Zpos p) e l in
  0 < shr_m mrs /\ emin prec emax <= e'.
Proof.
  intros He. unfold shr_fexp, shr.
  set (n := fexp prec emax (Zdigits2 (Zpos p) + e) - e).
  assert (Hn : n < Zpos (digits2_pos p)) by (unfold n, fexp; simpl Zdigits2; lia).
  assert (Hm : shr_m (shr_record_of_loc (Zpos p) l) = Zpos p)
    by (destruct l as [|[]]; reflexivity).
  destruct n as [|q|q] eqn:En.
  - rewrite Hm. lia.
  - rewrite iter_pos_iter, shr_iter_m by (rewrite Hm; lia).
    rewrite Hm. split; [apply shiftr_pos_digits; lia|].
    unfold fexp in n. lia.
  - rewrite Hm. lia.
Qed.

Lemma round_nearest_even_pos m l : 0 < m -> 0 < round_nearest_even m l.
Proof. destruct l as [|[]]; simpl; try lia. destruct (Z.even m); lia. Qed.

Lemma binary_round_aux_pos s p e l :
  emin prec emax <= e -> signed_number s (binary_round_aux prec emax s (Zpos p) e l).
Proof.
  intros He. unfold binary_round_aux.
  pose proof (shr_fexp_pos p e l He) as H1.
  destruct (shr_fexp prec emax (Zpos p) e l) as [mrs1 e1]. destruct H1 as [Hm1 He1].
  pose proof (round_nearest_even_pos (shr_m mrs1) (loc_of_shr_record mrs1) Hm1) as Hr.
  destruct (round_nearest_even (shr_m mrs1) (loc_of_shr_record mrs1)) as [|q|q]; try lia.
  pose proof (shr_fexp_pos q e1 loc_Exact He1) as H2.
  destruct (shr_fexp prec emax (Zpos q) e1 loc_Exact) as [mrs2 e2]. destruct H2 as [Hm2 _].
  destruct (shr_m mrs2) as [|q2|q2]; try lia.
  destruct (e2 <=? emax - prec); [left; eauto | right; reflexivity].
Qed.

(** Rounding a positive integer multiple of a power of two that is not below
    the smallest subnormal never yields a zero or a NaN. *)
Lemma binary_round_pos s p e :
  emin prec emax <= e -> signed_number s (binary_round prec emax s p e).
Proof.
  intros He. unfold binary_round, shl_align.
  set (e' := fexp prec emax (Zpos (digits2_pos p) + e)).
  assert (emin prec emax <= e') by (unfold e', fexp; lia).
  destruct (e' - e); apply binary_round_aux_pos; lia.
Qed.

Lemma digits2_pos_iter_xO m k :
  Zpos (digits2_pos (Pos.iter xO m k)) = Zpos (digits2_pos m) + Zpos k.
Proof.
  induction k using Pos.peano_ind.
  - simpl. lia.
  - rewrite Pos.iter_succ. simpl digits2_pos. lia.
Qed.

Lemma shr_iter_xO m k :
  Pos.iter shr_1 {| shr_m := Zpos (Pos.iter xO m k); shr_r := false; shr_s := false |} k
  = {| shr_m := Zpos m; shr_r := false; shr_s := false |}.
Proof.
  induction k using Pos.peano_ind.
  - reflexivity.
  - rewrite !Pos.iter_succ, <- Pos.iter_swap. exact IHk.
Qed.

Lemma shr_fexp_canonical m e :
  fexp prec emax (Zpos (digits2_pos m) + e) = e ->
  shr_fexp prec emax (Zpos m) e loc_Exact
  = ({| shr_m := Zpos m; shr_r := false; shr_s := false |}, e).
Proof.
  intros Hc. unfold shr_fexp.
  change (Zdigits2 (Zpos m)) with (Zpos (digits2_pos m)).
  rewrite Hc, Z.sub_diag. reflexivity.
Qed.

Lemma shr_fexp_shifted m k e :
  fexp prec emax (Zpos (digits2_pos m) + e) = e ->
  shr_fexp prec emax (Zpos (Pos.iter xO m k)) (e - Zpos k) loc_Exact
  = ({| shr_m := Zpos m; shr_r := false; shr_s := false |}, e).
Proof.
  intros Hc. unfold shr_fexp.
  change (Zdigits2 (Zpos (Pos.iter xO m k))) with (Zpos (digits2_pos (Pos.iter xO m k))).
  rewrite digits2_pos_iter_xO.
  replace (Zpos (digits2_pos m) + Zpos k + (e - Zpos k)) with (Zpos (digits2_pos m) + e) by lia.
  rewrite Hc. replace (e - (e - Zpos k)) with (Zpos k) by lia.
  unfold shr, shr_record_of_loc.
  rewrite iter_pos_iter, shr_iter_xO. f_equal. lia.
Qed.


Lemma binary_round_aux_shifted s m k e :
  fexp prec emax (Zpos (digits2_pos m) + e) = e -> e <= emax - prec ->
  binary_round_aux prec emax s (Zpos (Pos.iter xO m k)) (e - Zpos k) loc_Exact
  = S754_finite s m e.
Proof.
  intros Hc He. unfold binary_round_aux.
  rewrite shr_fexp_shifted by exact Hc.
  cbn [shr_m loc_of_shr_record round_nearest_even].
  rewrite shr_fexp_canonical by exact Hc. cbn [shr_m].
  apply Z.leb_le in He. rewrite He. reflexivity.
Qed.

End Rounding.

(** ** Facts about binary32 and binary64 values *)

Lemma valid32_bounds m e s :
  IEEE.valid32 (S754_finite s m e) = true ->
  Zpos (digits2_pos m) <= 24 /\ -149 <= e <= 104 /\
  fexp IEEE.prec32 IEEE.emax32 (Zpos (digits2_pos m) + e) = e.
Proof.
  unfold IEEE.valid32, valid_binary, bounded, canonical_mantissa.
  rewrite andb_true_iff, Z.eqb_eq, Z.leb_le.
  unfold fexp, emin, IEEE.prec32, IEEE.emax32. lia.
Qed.





(** Multiplying by [1.0f] is exact. *)
Lemma fmul_one x : IEEE.valid32 x = true -> IEEE.fmul (IEEE.float_of_Z 1) x = x.
Proof.
  intros Hv. destruct x as [s|s| |s m e]; try reflexivity.
  apply valid32_bounds in Hv. destruct Hv as (Hd & He & Hc).
  change (IEEE.float_of_Z 1) with (S754_finite false 8388608 (-23)).
  unfold IEEE.fmul, SFmul. cbn [xorb].
  change (8388608 * m)%positive with (Pos.iter xO m 23).
  replace (-23 + e) with (e - 23) by lia.
  apply binary_round_aux_shifted; [exact Hc | unfold IEEE.emax32, IEEE.prec32; lia].
Qed.

(** A positive integer converts to a positive number or to infinity. *)
Lemma float_of_Z_pos k : 0 < k -> signed_number false (IEEE.float_of_Z k).
Proof.
  intros Hk. destruct k as [|p|p]; try lia.
  unfold IEEE.float_of_Z, binary_normalize.
  apply binary_round_pos; unfold emin, IEEE.prec32, IEEE.emax32; lia.
Qed.

Lemma fdiv_zero_pos y :
  signed_number false y -> IEEE.fdiv (S754_zero false) y = S754_zero false.
Proof. intros [(m & e & ->)| ->]; reflexivity. Qed.

Lemma fmul_zero_finite x :
  IEEE.is_finite x = true -> exists s, IEEE.fmul (S754_zero false) x = S754_zero s.
Proof. destruct x as [s|s| |s m e]; intros [=]; eexists; reflexivity. Qed.

Lemma fadd_zero_alike s x :
  IEEE.is_finite x = true -> alike (IEEE.fadd (S754_zero s) x) x.
Proof.
  destruct x as [s'|s'| |s' m e]; intros [=].
  - right. destruct s, s'; eexists _, _; split; reflexivity.
  - left. reflexivity.
Qed.

Lemma alike_finite x y : alike x y -> IEEE.is_finite y = true -> IEEE.is_finite x = true.
Proof. intros [->|(s1 & s2 & -> & ->)]; [trivial | reflexivity]. Qed.

Lemma alike_trans x y z : alike x y -> alike y z -> alike x z.
Proof.
  intros [->|(s1 & s2 & -> & ->)]; [trivial|].
  intros [<-|(s3 & s4 & [=] & ->)]; right; eauto.
Qed.

(** [==] holds between alike finite numbers. *)
Lemma alike_eqb x y : alike x y -> IEEE.is_finite y = true -> IEEE.eqb x y = true.
Proof.
  intros [->|(s1 & s2 & -> & ->)]; [|reflexivity].
  destruct y as [s|s| |s m e]; intros [=]; [reflexivity|].
  unfold IEEE.eqb, SFeqb, SFcompare.
  rewrite Z.compare_refl, Pos.compare_cont_refl. destruct s; reflexivity.
Qed.

(** A finite difference has finite operands. *)
Lemma fsub_finite x y :
  IEEE.is_finite (IEEE.fsub x y) = true ->
  IEEE.is_finite x = true /\ IEEE.is_finite y = true.
Proof.
  destruct y as [sy|sy| |sy my ey].
  - destruct x as [sx|sx| |sx mx ex]; [| destruct sx, sy | |]; intros [=]; split; reflexivity.
  - destruct x as [sx|sx| |sx mx ex]; [| destruct sx, sy | |]; intros [=].
  - destruct x; intros [=].
  - destruct x as [sx|sx| |sx mx ex]; [ | intros [=] | intros [=] |];
      intros _; split; reflexivity.
Qed.

(** ** The pixel-to-complex mapping at the origin *)

Lemma fmul_one_alike zy y :
  IEEE.valid32 y = true -> alike zy y -> alike (IEEE.fmul (IEEE.float_of_Z 1) zy) y.
Proof.
  intros Hv [->|(s1 & s2 & -> & ->)].
  - left. apply fmul_one, Hv.
  - right. eexists _, _. split; reflexivity.
Qed.

(** C7, as the code has it: when neither extent [upper - lower] overflows
    binary32, pixel (0,0) is mapped to [(lower_x, lower_y)] itself: each
    coordinate is the bound, bit for bit or up to the sign of a zero, and
    compares equal to it with [==]. *)
Theorem origin_pixel_is_lower_corner (t : area ieee) (W H : Z) :
  area_valid t ->
  IEEE.is_finite (range_x t) = true ->
  IEEE.is_finite (range_y t) = true ->
  0 < W -> 0 < H ->
  let z := pixel_to_complex t 0 0 W H in
  (alike (re z) (lower_x t) /\ alike (im z) (lower_y t)) /\
  (IEEE.eqb (re z) (lower_x t) = true /\ IEEE.eqb (im z) (lower_y t) = true).
Proof.
  intros (Vlx & Vux & Vly & Vuy) Hrx Hry HW HH.
  destruct (fsub_finite _ _ Hrx) as [_ Flx]. destruct (fsub_finite _ _ Hry) as [_ Fly].
  assert (Hz : alike (re (pixel_to_complex t 0 0 W H)) (lower_x t) /\
               alike (im (pixel_to_complex t 0 0 W H)) (lower_y t)).
  { unfold pixel_to_complex. cbn [re im].
    change (IEEE.float_of_Z 0) with (S754_zero false).
    rewrite !fdiv_zero_pos by (apply float_of_Z_pos; assumption).
    destruct (fmul_zero_finite _ Hrx) as [sx Ex].
    destruct (fmul_zero_finite _ Hry) as [sy Ey].
    unfold range_x in Ex. unfold range_y in Ey. rewrite Ex, Ey.
    pose proof (fadd_zero_alike sx _ Flx) as Ax.
    pose proof (fadd_zero_alike sy _ Fly) as Ay.
    pose proof (alike_finite _ _ Ax Flx) as Fzx.
    pose proof (alike_finite _ _ Ay Fly) as Fzy.
    destruct (fmul_zero_finite _ Fzy) as [s' E']. rewrite E'.
    split.
    - eapply alike_trans; [apply fadd_zero_alike, Fzx | exact Ax].
    - apply fmul_one_alike; assumption. }
  destruct Hz as [Hre Him]. cbv zeta.
  split; [split; assumption|].
  split; apply alike_eqb; assumption.
Qed.

Lemma origin_pixel_is_lower_corner_witness :
  let t := target_area (initial_nav ieee) in
  IEEE.eqb (re (pixel_to_complex t 0 0 512 512)) (lower_x t) = true /\
  IEEE.eqb (im (pixel_to_complex t 0 0 512 512)) (lower_y t) = true.
Proof.
  apply (origin_pixel_is_lower_corner (target_area (initial_nav ieee)) 512 512).
  - repeat split; reflexivity.
  - reflexivity.
  - reflexivity.
  - lia.
  - lia.
Defined.

(** C7 as stated fails: [wide_area] has finite binary32 bounds and positive
    extents, yet its extent along x overflows, and pixel (0,0) gets a NaN
    real part, which equals nothing.  The viewport the display loop holds
    after 917 passes with the zoom-out key down has the same effect. *)
Lemma origin_pixel_nan_on_overflow :
  (area_valid wide_area /\ positive_extent ieee wide_area /\
   IEEE.is_finite (lower_x wide_area) = true /\
   IEEE.is_finite (upper_x wide_area) = true /\
   re (pixel_to_complex wide_area 0 0 512 512) = S754_nan /\
   IEEE.eqb (re (pixel_to_complex wide_area 0 0 512 512)) (lower_x wide_area) = false) /\
  (positive_extent ieee (after_zoom_out 917) /\
   IEEE.eqb (re (pixel_to_complex (after_zoom_out 917) 0 0 512 512))
            (lower_x (after_zoom_out 917)) = false).
Proof. vm_compute. repeat split. Qed.

(** ** The viewport invariant *)








(** ** The convergence kernel *)


Section KernelFacts.

Context {lib : StdComplex}.
Variable ColorBrightness : Color -> IEEE.float -> Color.




Lemma scan_roots_bound (z : complex) (roots : list float2) (i j : nat) :
  scan_roots z i roots = Some j -> (i <= j < i + length roots)%nat.
Proof.
  revert i. induction roots as [|root rest IH]; intros i; cbn [scan_roots length].
  - intros [=].
  - destruct (reached z root); [intros [= <-]; lia|].
    intros H. apply IH in H. lia.
Qed.

Lemma orbit_shift (roots : list float2) (k : nat) (z : complex) :
  orbit roots k (newton_update roots z) = newton_update roots (orbit roots k z).
Proof. induction k as [|k IH]; cbn [orbit]; [reflexivity | rewrite IH; reflexivity]. Qed.


Lemma newton_root_bound (roots : list float2) (budget i k j : nat) (z : complex) :
  newton roots budget i z = at_root k j -> (j < length roots)%nat.
Proof.
  revert i z. induction budget as [|budget IH]; intros i z; cbn [newton]; [intros [=]|].
  destruct (derivative_small roots z); [intros [=]|].
  destruct (scan_roots _ 0 roots) as [j'|] eqn:Hs.
  - intros [= _ <-]. apply scan_roots_bound in Hs. lia.
  - apply IH.
Qed.

(** The kernel returns a colour whenever every root has a colour, and the
    colour is opaque when [ColorBrightness] copies alpha, as raylib's does. *)
Lemma calculate_single_pixel_total (z : complex) (roots : list float2) (colors : list color) :
  (length roots <= length colors)%nat ->
  exists c, calculate_single_pixel ColorBrightness z roots colors = Some c /\
            ((forall c0 f, a (ColorBrightness c0 f) = a c0) -> a c = 255).
Proof.
  intros Hlen. unfold calculate_single_pixel.
  destruct (newton roots _ 0 z) as [k j| k |] eqn:Hn.
  - apply newton_root_bound in Hn.
    destruct (lookup_lt_is_Some_2 colors j ltac:(lia)) as [clr ->].
    eexists. split; [reflexivity|]. intros Ha. rewrite Ha. reflexivity.
  - eexists. split; [reflexivity|]. intros _. reflexivity.
  - eexists. split; [reflexivity|]. intros _. reflexivity.
Qed.


(** C2 (what the code does instead): the colour returned for a root does not
    depend on the pass in which the root was reached; two starting points
    that reach the same root after different numbers of updates get the same
    colour.  The factor of line 78 reads the index [i] of the inner loop,
    which hides the pass counter [i] of the outer loop. *)
Theorem shading_ignores_iteration_count
        (roots : list float2) (colors : list color) (z1 z2 : complex) (i1 i2 j : nat) :
  newton roots 42 0 z1 = at_root i1 j ->
  newton roots 42 0 z2 = at_root i2 j ->
  calculate_single_pixel ColorBrightness z1 roots colors
  = calculate_single_pixel ColorBrightness z2 roots colors.
Proof.
  intros H1 H2. unfold calculate_single_pixel.
  change (Z.to_nat max_iteration) with 42%nat. rewrite H1, H2. reflexivity.
Qed.

(** C4: when the magnitude of the derivative at [z0] is at most the
    tolerance, the loop is left in its first pass before any update, and the
    kernel returns [DARKGREEN]. *)
Theorem small_derivative_returns_fallback
        (roots : list float2) (colors : list color) (z0 : complex) :
  derivative_small roots z0 = true ->
  newton roots 42 0 z0 = at_break 0 /\
  updates_done (newton roots 42 0 z0) = 0%nat /\
  calculate_single_pixel ColorBrightness z0 roots colors = Some DARKGREEN.
Proof.
  intros Hd.
  assert (Hn : newton roots 42 0 z0 = at_break 0) by (cbn [newton]; rewrite Hd; reflexivity).
  unfold calculate_single_pixel. change (Z.to_nat max_iteration) with 42%nat.
  rewrite Hn. repeat split.
Qed.

End KernelFacts.


Lemma shading_ignores_iteration_count_witness :
  newton roots_of_2 42 0 (z_of 2 0) = at_root 3 0 /\
  newton roots_of_2 42 0 (z_of 1 0) = at_root 0 0 /\
  calculate_single_pixel Reference.ColorBrightness (z_of 2 0) roots_of_2 (set_colors 2)
  = calculate_single_pixel Reference.ColorBrightness (z_of 1 0) roots_of_2 (set_colors 2).
Proof.
  assert (H1 : newton roots_of_2 42 0 (z_of 2 0) = at_root 3 0) by (vm_compute; reflexivity).
  assert (H2 : newton roots_of_2 42 0 (z_of 1 0) = at_root 0 0) by (vm_compute; reflexivity).
  split; [exact H1 | split; [exact H2 |]].
  exact (shading_ignores_iteration_count (lib := Reference.complex_lib)
           Reference.ColorBrightness roots_of_2 (set_colors 2) (z_of 2 0) (z_of 1 0) 3 0 0 H1 H2).
Defined.

Lemma small_derivative_returns_fallback_witness :
  derivative_small roots_of_2 (z_of 0 0) = true /\
  updates_done (newton roots_of_2 42 0 (z_of 0 0)) = 0%nat /\
  calculate_single_pixel Reference.ColorBrightness (z_of 0 0) roots_of_2 (set_colors 2)
  = Some DARKGREEN.
Proof.
  assert (Hd : derivative_small roots_of_2 (z_of 0 0) = true) by (vm_compute; reflexivity).
  split; [exact Hd|].
  exact (proj2 (small_derivative_returns_fallback (lib := Reference.complex_lib)
                  Reference.ColorBrightness roots_of_2 (set_colors 2) (z_of 0 0) Hd)).
Defined.

(** ** The colour table *)

Lemma for_each_last {S : Type} (count : nat) (i : Z) (body : Z -> S -> S) (s : S) :
  for_each (Datatypes.S count) i body s
  = body (i + Z.of_nat count) (for_each count i body s).
Proof.
  revert i s. induction count as [|count IH]; intros i s.
  - cbn. f_equal. lia.
  - change (for_each (Datatypes.S (Datatypes.S count)) i body s)
      with (for_each (Datatypes.S count) (i + 1) body (body i s)).
    rewrite IH. cbn [for_each]. f_equal. lia.
Qed.

Lemma current_at_next (i : nat) :
  (4 <= i)%nat -> current_at (S i) = advance (Z.of_nat (S i)) (current_at i).
Proof.
  intros Hi. unfold current_at.
  replace (S i - 4)%nat with (S (i - 4)) by lia.
  rewrite for_each_last. f_equal. lia.
Qed.

Lemma shift_channel_mod (x : Z) :
  channel_ok x -> shift_channel x = (x + 100) mod 255 /\ channel_ok (shift_channel x).
Proof.
  unfold channel_ok, shift_channel, uint8_t. intros Hx.
  rewrite Z.rem_mod_nonneg by lia.
  pose proof (Z.mod_pos_bound (x + 100) 255 ltac:(lia)).
  rewrite (Z.mod_small _ (2 ^ 8)) by lia. lia.
Qed.

(** The running colour keeps its channels in range and its fourth component
    at zero. *)
Lemma current_at_ok (i : nat) :
  (4 <= i)%nat ->
  channel_ok (cr (current_at i)) /\ channel_ok (cg (current_at i)) /\
  channel_ok (cb (current_at i)) /\ ca (current_at i) = 0.
Proof.
  induction i as [|i IH]; [lia|]. intros Hi.
  destruct (decide (i = 3%nat)) as [->|Hne].
  - cbn. unfold channel_ok. lia.
  - destruct IH as (Hr & Hg & Hb & Ha); [lia|].
    rewrite current_at_next by lia. unfold advance.
    destruct (Z.rem _ 3 =? 0), (Z.rem _ 3 =? 1), (Z.rem _ 3 =? 2); cbn [cr cg cb ca];
      split_and!; try assumption; repeat apply shift_channel_mod; assumption.
Qed.

Lemma current_at_step (i : nat) :
  (5 <= i)%nat -> one_channel_step i (current_at (i - 1)) (current_at i).
Proof.
  intros Hi. destruct i as [|i]; [lia|].
  replace (S i - 1)%nat with i by lia.
  destruct (current_at_ok i ltac:(lia)) as (Hr & Hg & Hb & _).
  rewrite current_at_next by lia. unfold advance.
  assert (Hrem : Z.rem (Z.of_nat (S i)) 3 = Z.of_nat (S i mod 3))
    by (rewrite Z.rem_mod_nonneg by lia; rewrite Nat2Z.inj_mod; reflexivity).
  rewrite Hrem.
  pose proof (Nat.mod_upper_bound (S i) 3 ltac:(lia)) as Hm.
  unfold one_channel_step.
  destruct (S i mod 3)%nat as [|[|[|k]]] eqn:Em; try lia; cbn [Z.of_nat Z.eqb Pos.of_succ_nat Pos.eqb Pos.succ cr cg cb ca];
    split_and!; intros; try lia; split_and!; try reflexivity; apply shift_channel_mod; assumption.
Qed.

(** The state of the loop of [set_colors] after [c] passes. *)
Lemma set_colors_passes (l0 : list color) (c : nat) :
  let st := for_each c 5 set_colors_pass (first_current, l0) in
  fst st = current_at (4 + c) /\
  length (snd st) = length l0 /\
  (forall j, (j < 5)%nat -> snd st !! j = l0 !! j) /\
  (forall j, (5 <= j < 5 + c)%nat -> (j < length l0)%nat -> snd st !! j = Some (current_at j)).
Proof.
  induction c as [|c IH]; cbv zeta.
  - cbn. repeat split; intros; lia.
  - rewrite for_each_last. cbv zeta in IH.
    destruct (for_each c 5 set_colors_pass (first_current, l0)) as [cur res].
    cbn [fst snd] in IH. destruct IH as (Hcur & Hlen & Hlow & Hhigh).
    unfold set_colors_pass. cbn [fst snd].
    replace (Z.to_nat (5 + Z.of_nat c)) with (5 + c)%nat by lia.
    assert (Hnext : advance (5 + Z.of_nat c) cur = current_at (4 + S c)).
    { replace (4 + S c)%nat with (S (4 + c)) by lia.
      rewrite current_at_next by lia. rewrite Hcur. f_equal. lia. }
    rewrite Hnext. repeat split.
    + rewrite length_insert. exact Hlen.
    + intros j Hj. rewrite list_lookup_insert_ne by lia. apply Hlow, Hj.
    + intros j Hj Hjl. destruct (decide (j = 5 + c)%nat) as [->|Hne].
      * rewrite list_lookup_insert_eq by lia. f_equal; f_equal; lia.
      * rewrite list_lookup_insert_ne by lia. apply Hhigh; lia.
Qed.

(** What the loop of [set_colors] leaves in the table. *)
Lemma set_colors_table_facts (n : nat) :
  length (set_colors n) = n /\
  ((n <= 5)%nat -> set_colors n = take n fixed_colors) /\
  (forall i, (i < 5)%nat -> (i < n)%nat -> set_colors n !! i = fixed_colors !! i) /\
  (forall i, (5 <= i < n)%nat -> set_colors n !! i = Some (current_at i)).
Proof.
  unfold set_colors.
  pose proof (set_colors_passes (resize n zero_color fixed_colors) (n - 5)) as H.
  cbv zeta in H. destruct H as (_ & Hlen & Hlow & Hhigh).
  rewrite length_resize in Hlen, Hhigh.
  split; [exact Hlen|]. split; [|split].
  - intros Hn. replace (n - 5)%nat with 0%nat by lia. cbn [for_each snd].
    apply resize_le. cbn. lia.
  - intros i Hi Hin. rewrite Hlow by exact Hi.
    rewrite lookup_resize by (cbn; lia). reflexivity.
  - intros i Hi. apply Hhigh; lia.
Qed.

(** C6: [set_colors n] has [n] entries; up to five they are the literal
    table cut to [n] entries, and the first five entries are the literal
    ones for every [n]; entry 5 is obtained from the initial running colour
    [{245, 109, 194}], and every later entry [i] from entry [i-1], by moving
    exactly the channel chosen by [i mod 3] (0 red, 1 green, 2 blue) by 100
    modulo 255: the running colour is carried from one index to the next.
    [n] is within the range of the [int] it is parsed into. *)
Theorem set_colors_table (n : nat) :
  Z.of_nat n <= INT_MAX ->
  length (set_colors n) = n /\
  ((n <= 5)%nat -> set_colors n = take n fixed_colors) /\
  (forall i, (i < 5)%nat -> (i < n)%nat -> set_colors n !! i = fixed_colors !! i) /\
  ((5 < n)%nat ->
     exists c, set_colors n !! 5%nat = Some c /\ one_channel_step 5 first_current c) /\
  (forall i, (5 < i < n)%nat ->
     exists p c, set_colors n !! (i - 1)%nat = Some p /\ set_colors n !! i = Some c /\
                 one_channel_step i p c).
Proof.
  intros _.
  destruct (set_colors_table_facts n) as (Hlen & Hshort & Hlow & Hhigh).
  split_and!; try assumption.
  - intros Hn. exists (current_at 5). split; [apply Hhigh; lia|].
    exact (current_at_step 5 ltac:(lia)).
  - intros i Hi. exists (current_at (i - 1)), (current_at i).
    split_and!; [apply Hhigh; lia | apply Hhigh; lia | apply current_at_step; lia].
Qed.

Lemma set_colors_table_witness :
  length (set_colors 7) = 7%nat /\
  exists p c, set_colors 7 !! 5%nat = Some p /\ set_colors 7 !! 6%nat = Some c /\
              one_channel_step 6 p c.
Proof.
  destruct (set_colors_table 7 ltac:(unfold INT_MAX; lia)) as (Hlen & _ & _ & _ & Hhigh).
  split; [exact Hlen|]. exact (Hhigh 6%nat ltac:(lia)).
Defined.

(** ** The root table *)

Lemma calculate_roots_passes (cexp : complex -> complex) (n c : nat) (l0 : list float2) :
  let l := for_each c 0
             (fun i result => <[Z.to_nat i := float2_of (cexp (root_argument i (Z.of_nat n)))]> result)
             l0 in
  length l = length l0 /\
  (forall i, (i < c)%nat -> (i < length l0)%nat ->
     l !! i = Some (float2_of (cexp (root_argument (Z.of_nat i) (Z.of_nat n))))).
Proof.
  induction c as [|c IH]; cbv zeta.
  - split; [reflexivity | intros; lia].
  - rewrite for_each_last. cbv zeta in IH. destruct IH as [Hlen Hent].
    replace (Z.to_nat (0 + Z.of_nat c)) with c by lia.
    split; [rewrite length_insert; exact Hlen|].
    intros i Hi Hil. destruct (decide (i = c)) as [->|Hne].
    + rewrite list_lookup_insert_eq by lia. reflexivity.
    + rewrite list_lookup_insert_ne by lia. apply Hent; lia.
Qed.

(** The structure of the root table: [n] entries, entry [i] being the
    library's [std::exp] at [i * theta_i], with [theta_i] the binary32 value
    of [(2.0f*pi*i)/n]; the first argument is [0 + 0i].  How close the
    entries are to the unit circle is a property of [std::exp]. *)
Lemma calculate_roots_entries (cexp : complex -> complex) (n : nat) :
  Z.of_nat n <= INT_MAX ->
  length (calculate_roots cexp n) = n /\
  (forall i, (i < n)%nat ->
     calculate_roots cexp n !! i
     = Some (float2_of (cexp (root_argument (Z.of_nat i) (Z.of_nat n))))) /\
  ((0 < n)%nat -> root_argument 0 (Z.of_nat n) = z_of 0 0).
Proof.
  intros _. unfold calculate_roots.
  pose proof (calculate_roots_passes cexp n n
                (replicate n {| v0 := IEEE.float_of_Z 0; v1 := IEEE.float_of_Z 0 |})) as H.
  cbv zeta in H. rewrite length_replicate in H. destruct H as [Hlen Hent].
  split; [exact Hlen|]. split; [intros i Hi; apply Hent; exact Hi|].
  intros Hn. unfold root_argument.
  change (IEEE.fmul (IEEE.fmul (IEEE.float_of_Z 2) pi_f) (IEEE.float_of_Z 0))
    with (S754_zero false).
  rewrite fdiv_zero_pos by (apply float_of_Z_pos; lia). reflexivity.
Qed.

(** ** The raster assembler *)

Lemma for_loop_invariant {S : Type} (P : Z -> S -> Prop) (body : Z -> S -> option S)
      (count : nat) (i0 : Z) (s : S) :
  P i0 s ->
  (forall i s, i0 <= i < i0 + Z.of_nat count -> P i s ->
     exists s', body i s = Some s' /\ P (i + 1) s') ->
  exists s', for_loop count i0 body s = Some s' /\ P (i0 + Z.of_nat count) s'.
Proof.
  revert i0 s. induction count as [|count IH]; intros i0 s H0 Hstep.
  - exists s. split; [reflexivity|]. replace (i0 + Z.of_nat 0) with i0 by lia. exact H0.
  - destruct (Hstep i0 s ltac:(lia) H0) as (s1 & Hb & H1).
    cbn [for_loop]. rewrite Hb.
    destruct (IH (i0 + 1) s1 H1) as (s' & Hl & HP).
    + intros i s2 Hi. apply Hstep. lia.
    + exists s'. split; [exact Hl|].
      replace (i0 + Z.of_nat (Datatypes.S count)) with (i0 + 1 + Z.of_nat count) by lia.
      exact HP.
Qed.

Lemma store_in_range (i x : Z) (v : list Z) :
  0 <= i < Z.of_nat (length v) -> store i x v = Some (<[Z.to_nat i := x]> v).
Proof. intros Hi. unfold store. rewrite decide_True by lia. reflexivity. Qed.

(** The four stores of one pixel, when its bytes are inside the buffer. *)
Lemma write_pixel_in_range (w x y : Z) (c : Color) (buf : list Z) :
  0 <= y * w + x ->
  4 * (y * w + x) + 3 < Z.of_nat (length buf) ->
  Z.of_nat (length buf) <= 2 ^ 64 ->
  let p := y * w + x in
  write_pixel w x y c buf
  = Some (<[Z.to_nat (4 * p + 3) := a c]>
            (<[Z.to_nat (4 * p + 2) := b c]>
               (<[Z.to_nat (4 * p + 1) := g c]>
                  (<[Z.to_nat (4 * p) := r c]> buf)))).
Proof.
  intros Hp Hlen Hmax. cbv zeta. unfold write_pixel.
  set (p := y * w + x) in *.
  assert (E0 : size_t (size_t p * 4) = 4 * p)
    by (unfold size_t; rewrite (Z.mod_small p) by lia; rewrite Z.mod_small by lia; lia).
  rewrite E0.
  assert (E1 : size_t (4 * p + 1) = 4 * p + 1) by (unfold size_t; rewrite Z.mod_small; lia).
  assert (E2 : size_t (4 * p + 2) = 4 * p + 2) by (unfold size_t; rewrite Z.mod_small; lia).
  assert (E3 : size_t (4 * p + 3) = 4 * p + 3) by (unfold size_t; rewrite Z.mod_small; lia).
  rewrite E1, E2, E3.
  rewrite store_in_range by lia. cbn [mbind option_bind].
  rewrite store_in_range by (rewrite length_insert; lia). cbn [mbind option_bind].
  rewrite store_in_range by (rewrite !length_insert; lia). cbn [mbind option_bind].
  rewrite store_in_range by (rewrite !length_insert; lia). reflexivity.
Qed.

Lemma holds_color_written (buf : list Z) (p : Z) (c : Color) :
  0 <= p -> 4 * p + 3 < Z.of_nat (length buf) ->
  holds_color (<[Z.to_nat (4 * p + 3) := a c]>
                 (<[Z.to_nat (4 * p + 2) := b c]>
                    (<[Z.to_nat (4 * p + 1) := g c]>
                       (<[Z.to_nat (4 * p) := r c]> buf)))) p c.
Proof.
  intros Hp Hlen. unfold holds_color. split_and!.
  - rewrite !list_lookup_insert_ne by lia.
    apply list_lookup_insert_eq. lia.
  - rewrite !list_lookup_insert_ne by lia.
    apply list_lookup_insert_eq. rewrite length_insert. lia.
  - rewrite list_lookup_insert_ne by lia.
    apply list_lookup_insert_eq. rewrite !length_insert. lia.
  - apply list_lookup_insert_eq. rewrite !length_insert. lia.
Qed.

Lemma holds_color_kept (buf : list Z) (p q : Z) (c c' : Color) :
  0 <= p -> 0 <= q -> q <> p ->
  holds_color buf q c' ->
  holds_color (<[Z.to_nat (4 * p + 3) := a c]>
                 (<[Z.to_nat (4 * p + 2) := b c]>
                    (<[Z.to_nat (4 * p + 1) := g c]>
                       (<[Z.to_nat (4 * p) := r c]> buf)))) q c'.
Proof.
  intros Hp Hq Hne (H0 & H1 & H2 & H3). unfold holds_color.
  split_and!; rewrite !list_lookup_insert_ne by lia; assumption.
Qed.

Section RasterFacts.

Context {lib : StdComplex}.
Variable ColorBrightness : Color -> IEEE.float -> Color.
Variable target : area ieee.
Variable roots : list float2.
Variable colors : list color.
Variables w h : Z.

Hypothesis w_nonneg : 0 <= w.
Hypothesis h_nonneg : 0 <= h.
Hypothesis size_fits : w * h * 4 < 2 ^ 64.
Hypothesis every_root_has_a_color : (length roots <= length colors)%nat.

Local Abbreviation stored := (pixel_stored ColorBrightness target roots colors w h).

(** The body of the inner loop at [(x, y)]: pixels before [(x, y)] in
    row-major order stay stored, and pixel [(x, y)] becomes stored. *)
Lemma pixel_pass (x y : Z) (buf : list Z) :
  0 <= x < w -> 0 <= y < h ->
  length buf = Z.to_nat (w * h * 4) ->
  (forall p, 0 <= p < y * w + x -> stored buf p) ->
  exists buf',
    (pixel_color ← calculate_single_pixel ColorBrightness
                      (pixel_to_complex target x y w h) roots colors;
     write_pixel w x y pixel_color buf) = Some buf' /\
    length buf' = Z.to_nat (w * h * 4) /\
    (forall p, 0 <= p < y * w + (x + 1) -> stored buf' p).
Proof.
  intros Hx Hy Hlen Hbefore.
  destruct (calculate_single_pixel_total ColorBrightness
              (pixel_to_complex target x y w h) roots colors every_root_has_a_color)
    as (c & Hc & _).
  rewrite Hc. cbn [mbind option_bind].
  assert (Hp : 0 <= y * w + x < w * h) by nia.
  rewrite write_pixel_in_range by lia. cbv zeta.
  eexists. split; [reflexivity|]. split; [rewrite !length_insert; exact Hlen|].
  intros p Hpr. destruct (decide (p = y * w + x)) as [->|Hne].
  - exists c. split.
    + unfold pixel_color_at.
      replace ((y * w + x) mod w) with x by (apply Z.mod_unique_pos with y; lia).
      replace ((y * w + x) / w) with y by (apply Z.div_unique_pos with x; lia).
      exact Hc.
    + apply holds_color_written; lia.
  - destruct (Hbefore p ltac:(lia)) as (c' & Hc' & Hh).
    exists c'. split; [exact Hc'|]. apply holds_color_kept; [lia | lia | exact Hne | exact Hh].
Qed.

(** The two loops store every pixel, whatever the buffer held before. *)
Lemma raster_loops (buf : list Z) :
  length buf = Z.to_nat (w * h * 4) ->
  exists buf',
    for_loop (Z.to_nat h) 0 (fun y buf =>
      for_loop (Z.to_nat w) 0 (fun x buf =>
        pixel_color ← calculate_single_pixel ColorBrightness
                         (pixel_to_complex target x y w h) roots colors;
        write_pixel w x y pixel_color buf) buf) buf = Some buf' /\
    length buf' = Z.to_nat (w * h * 4) /\
    (forall p, 0 <= p < w * h -> stored buf' p).
Proof.
  intros Hlen.
  destruct (for_loop_invariant
              (fun y buf => length buf = Z.to_nat (w * h * 4) /\
                            forall p, 0 <= p < y * w -> stored buf p)
              (fun y buf =>
                 for_loop (Z.to_nat w) 0 (fun x buf =>
                   pixel_color ← calculate_single_pixel ColorBrightness
                                    (pixel_to_complex target x y w h) roots colors;
                   write_pixel w x y pixel_color buf) buf)
              (Z.to_nat h) 0 buf) as (buf' & Hrun & Hl & Hall).
  - split; [exact Hlen | intros p Hp; lia].
  - intros y b Hy [Hb Hrows].
    destruct (for_loop_invariant
                (fun x buf => length buf = Z.to_nat (w * h * 4) /\
                              forall p, 0 <= p < y * w + x -> stored buf p)
                (fun x buf =>
                   pixel_color ← calculate_single_pixel ColorBrightness
                                    (pixel_to_complex target x y w h) roots colors;
                   write_pixel w x y pixel_color buf)
                (Z.to_nat w) 0 b) as (b' & Hrow & Hl' & Hall').
    + split; [exact Hb | intros p Hp; apply Hrows; lia].
    + intros x b1 Hx [Hb1 Hcols].
      destruct (pixel_pass x y b1 ltac:(lia) ltac:(lia) Hb1 Hcols) as (b2 & Hw & Hl2 & Hs2).
      exists b2. split; [exact Hw|]. split; [exact Hl2 | exact Hs2].
    + exists b'. split; [exact Hrow|]. split; [exact Hl'|].
      intros p Hp. apply Hall'. lia.
  - exists buf'. split; [exact Hrun|]. split; [exact Hl|].
    intros p Hp. apply Hall. lia.
Qed.

(** Two buffers of the image size in which every pixel is stored are equal. *)
Lemma stored_buffers_equal (buf1 buf2 : list Z) :
  length buf1 = Z.to_nat (w * h * 4) ->
  length buf2 = Z.to_nat (w * h * 4) ->
  (forall p, 0 <= p < w * h -> stored buf1 p) ->
  (forall p, 0 <= p < w * h -> stored buf2 p) ->
  buf1 = buf2.
Proof.
  clear w_nonneg h_nonneg size_fits every_root_has_a_color.
  intros L1 L2 S1 S2. apply list_eq. intros j.
  destruct (decide (j < Z.to_nat (w * h * 4))%nat) as [Hj|Hj].
  - set (p := Z.of_nat j / 4).
    assert (Hp : 0 <= p < w * h) by (unfold p; split; [apply Z.div_pos; lia | apply Z.div_lt_upper_bound; lia]).
    destruct (S1 p Hp) as (c1 & Hc1 & A0 & A1 & A2 & A3).
    destruct (S2 p Hp) as (c2 & Hc2 & B0 & B1 & B2 & B3).
    assert (c1 = c2) as <- by congruence.
    pose proof (Z.div_mod (Z.of_nat j) 4 ltac:(lia)) as Hdm. fold p in Hdm.
    pose proof (Z.mod_pos_bound (Z.of_nat j) 4 ltac:(lia)) as Hm.
    assert (Hcase : Z.of_nat j mod 4 = 0 \/ Z.of_nat j mod 4 = 1 \/
                    Z.of_nat j mod 4 = 2 \/ Z.of_nat j mod 4 = 3) by lia.
    destruct Hcase as [Hk|[Hk|[Hk|Hk]]]; rewrite Hk in Hdm.
    + replace j with (Z.to_nat (4 * p)) by lia. congruence.
    + replace j with (Z.to_nat (4 * p + 1)) by lia. congruence.
    + replace j with (Z.to_nat (4 * p + 2)) by lia. congruence.
    + replace j with (Z.to_nat (4 * p + 3)) by lia. congruence.
  - rewrite !lookup_ge_None_2 by lia. reflexivity.
Qed.

End RasterFacts.


Lemma reference_brightness_copies_alpha :
  forall c f, a (Reference.ColorBrightness c f) = a c.
Proof. intros c f. reflexivity. Qed.


(** C10: for n > 5 the entries of [set_colors n] from index 5 on have 0 as
    their fourth component and the first five have 255; [to_raylib] sets
    alpha to 255 whatever the entry holds, so the colour the kernel returns
    with this table is opaque when [ColorBrightness] copies alpha, as
    raylib's does. *)
Theorem generated_colors_alpha
        `{lib : StdComplex} (ColorBrightness : Color -> IEEE.float -> Color)
        (n : nat) (roots : list float2) (z : complex) :
  (5 < n)%nat -> Z.of_nat n <= INT_MAX ->
  (length roots <= n)%nat ->
  (forall c f, a (ColorBrightness c f) = a c) ->
  (forall i, (5 <= i < n)%nat -> exists clr, set_colors n !! i = Some clr /\ ca clr = 0) /\
  (forall i, (i < 5)%nat -> exists clr, set_colors n !! i = Some clr /\ ca clr = 255) /\
  (forall clr, a (to_raylib clr) = 255) /\
  (exists c, calculate_single_pixel ColorBrightness z roots (set_colors n) = Some c /\
             a c = 255).
Proof.
  intros Hn _ Hroots Halpha.
  destruct (set_colors_table_facts n) as (Hlen & _ & Hlow & Hhigh).
  split_and!.
  - intros i Hi. exists (current_at i). split; [apply Hhigh, Hi|].
    apply current_at_ok. lia.
  - intros i Hi. rewrite Hlow by lia.
    destruct i as [|[|[|[|[|i]]]]]; try lia; eexists; (split; [reflexivity|reflexivity]).
  - intros clr. reflexivity.
  - destruct (calculate_single_pixel_total ColorBrightness z roots (set_colors n))
      as (c & Hc & Ha); [rewrite Hlen; exact Hroots|].
    exists c. split; [exact Hc | exact (Ha Halpha)].
Qed.

Lemma generated_colors_alpha_witness :
  set_colors 7 !! 5%nat = Some {| cr := 245; cg := 109; cb := 39; ca := 0 |} /\
  set_colors 7 !! 6%nat = Some {| cr := 90; cg := 109; cb := 39; ca := 0 |} /\
  exists c, calculate_single_pixel Reference.ColorBrightness (z_of 2 0) roots_of_2
              (set_colors 7) = Some c /\ a c = 255.
Proof.
  split; [reflexivity|]. split; [reflexivity|].
  exact (proj2 (proj2 (proj2
    (generated_colors_alpha Reference.ColorBrightness 7 roots_of_2 (z_of 2 0)
       ltac:(lia) ltac:(unfold INT_MAX; lia) ltac:(cbn; lia)
       reference_brightness_copies_alpha)))).
Defined.

(** ** More on the convergence kernel *)

Section KernelExits.

Context {lib : StdComplex}.
Variable ColorBrightness : Color -> IEEE.float -> Color.
Variable roots : list float2.

Lemma orbit_next (d : nat) (z : complex) :
  orbit roots d (newton_update roots z) = orbit roots (S d) z.
Proof. apply orbit_shift. Qed.

Lemma keeps_going_shift (z : complex) (k : nat) :
  keeps_going roots z (S k) <->
  derivative_small roots z = false /\
  scan_roots (newton_update roots z) 0 roots = None /\
  keeps_going roots (newton_update roots z) k.
Proof.
  unfold keeps_going. split.
  - intros Hk. destruct (Hk O ltac:(lia)) as [Hd Hs]. cbn [orbit] in Hd, Hs.
    split; [exact Hd|]. split; [exact Hs|].
    intros i Hi. destruct (Hk (S i) ltac:(lia)) as [Hd' Hs'].
    cbn [orbit] in Hd', Hs' |- *. rewrite !orbit_shift. split; assumption.
  - intros (Hd & Hs & Hk) i Hi. destruct i as [|i].
    + cbn [orbit]. split; assumption.
    + destruct (Hk i ltac:(lia)) as [Hd' Hs'].
      cbn [orbit] in Hd', Hs' |- *. rewrite !orbit_shift in Hd', Hs'. split; assumption.
Qed.

(** How the loop started at pass [i] with [budget] passes is left. *)
Lemma newton_leave (budget i : nat) (z : complex) :
  (forall k j, newton roots budget i z = at_root k j <->
     exists d, k = (i + d)%nat /\ (d < budget)%nat /\ keeps_going roots z d /\
               derivative_small roots (orbit roots d z) = false /\
               scan_roots (orbit roots (S d) z) 0 roots = Some j) /\
  (forall k, newton roots budget i z = at_break k <->
     exists d, k = (i + d)%nat /\ (d < budget)%nat /\ keeps_going roots z d /\
               derivative_small roots (orbit roots d z) = true) /\
  (newton roots budget i z = at_end <-> keeps_going roots z budget).
Proof.
  revert i z. induction budget as [|budget IH]; intros i z.
  - cbn [newton]. split_and!.
    + intros k j. split; [intros [=] | intros (d & _ & Hd & _); lia].
    + intros k. split; [intros [=] | intros (d & _ & Hd & _); lia].
    + split; [intros _ m Hm; lia | reflexivity].
  - cbn [newton]. destruct (derivative_small roots z) eqn:Hds.
    + split_and!.
      * intros k j. split; [intros [=]|].
        intros (d & -> & Hd & Hk & Hsm & Hsc). destruct d as [|d].
        -- cbn [orbit] in Hsm. congruence.
        -- apply keeps_going_shift in Hk. destruct Hk as [Hk _]. congruence.
      * intros k. split.
        -- intros [= <-]. exists O. split_and!; [lia | lia | intros m Hm; lia | exact Hds].
        -- intros (d & -> & Hd & Hk & Hsm). destruct d as [|d]; [f_equal; lia|].
           apply keeps_going_shift in Hk. destruct Hk as [Hk _]. congruence.
      * split; [intros [=]|]. intros Hk. apply keeps_going_shift in Hk.
        destruct Hk as [Hk _]. congruence.
    + destruct (scan_roots (newton_update roots z) 0 roots) as [j0|] eqn:Hsc0.
      * split_and!.
        -- intros k j. split.
           ++ intros [= <- <-]. exists O.
              split_and!; [lia | lia | intros m Hm; lia | exact Hds | exact Hsc0].
           ++ intros (d & -> & Hd & Hk & Hsm & Hsc). destruct d as [|d].
              ** cbn [orbit] in Hsc. rewrite Hsc0 in Hsc. injection Hsc as ->.
                 f_equal. lia.
              ** apply keeps_going_shift in Hk. destruct Hk as (_ & Hk & _). congruence.
        -- intros k. split; [intros [=]|].
           intros (d & -> & Hd & Hk & Hsm). destruct d as [|d].
           ++ cbn [orbit] in Hsm. congruence.
           ++ apply keeps_going_shift in Hk. destruct Hk as (_ & Hk & _). congruence.
        -- split; [intros [=]|]. intros Hk. apply keeps_going_shift in Hk.
           destruct Hk as (_ & Hk & _). congruence.
      * destruct (IH (S i) (newton_update roots z)) as (IHr & IHb & IHe).
        split_and!.
        -- intros k j. rewrite IHr. split.
           ++ intros (d & -> & Hd & Hk & Hsm & Hsc). rewrite orbit_next in Hsm, Hsc.
              exists (S d). split_and!; [lia | lia | | exact Hsm | exact Hsc].
              apply keeps_going_shift. split_and!; assumption.
           ++ intros (d & -> & Hd & Hk & Hsm & Hsc). destruct d as [|d].
              ** cbn [orbit] in Hsc. congruence.
              ** exists d. apply keeps_going_shift in Hk. destruct Hk as (_ & _ & Hk).
                 rewrite !orbit_next. split_and!; [lia | lia | exact Hk | exact Hsm | exact Hsc].
        -- intros k. rewrite IHb. split.
           ++ intros (d & -> & Hd & Hk & Hsm). rewrite orbit_next in Hsm.
              exists (S d). split_and!; [lia | lia | | exact Hsm].
              apply keeps_going_shift. split_and!; assumption.
           ++ intros (d & -> & Hd & Hk & Hsm). destruct d as [|d].
              ** cbn [orbit] in Hsm. congruence.
              ** exists d. apply keeps_going_shift in Hk. destruct Hk as (_ & _ & Hk).
                 rewrite !orbit_next. split_and!; [lia | lia | exact Hk | exact Hsm].
        -- rewrite IHe. rewrite keeps_going_shift. split.
           ++ intros Hk. split_and!; assumption.
           ++ intros (_ & _ & Hk). exact Hk.
Qed.

Lemma scan_roots_from (z : complex) (rs : list float2) (i j : nat) :
  scan_roots z i rs = Some j <->
  exists d root, j = (i + d)%nat /\ rs !! d = Some root /\ reached z root = true /\
    forall d' root', (d' < d)%nat -> rs !! d' = Some root' -> reached z root' = false.
Proof.
  revert i. induction rs as [|r rest IH]; intros i; cbn [scan_roots].
  - split; [intros [=] | intros (d & root & _ & Hl & _); discriminate Hl].
  - destruct (reached z r) eqn:Hr.
    + split.
      * intros [= <-]. exists O, r. split_and!; [lia | reflexivity | exact Hr | intros; lia].
      * intros (d & root & -> & Hl & Hroot & Hmin). destruct d as [|d]; [f_equal; lia|].
        specialize (Hmin O r ltac:(lia) eq_refl). congruence.
    + rewrite IH. split.
      * intros (d & root & -> & Hl & Hroot & Hmin). exists (S d), root.
        split_and!; [lia | exact Hl | exact Hroot |].
        intros d' root' Hd' Hl'. destruct d' as [|d']; [cbn in Hl'; congruence|].
        apply (Hmin d' root'); [lia | exact Hl'].
      * intros (d & root & -> & Hl & Hroot & Hmin). destruct d as [|d].
        -- cbn in Hl. congruence.
        -- exists d, root. split_and!; [lia | exact Hl | exact Hroot |].
           intros d' root' Hd' Hl'. apply (Hmin (S d') root'); [lia | exact Hl'].
Qed.

(** X1: the kernel leaves at root [j] in pass [k] exactly when [k] is below
    the budget of 42, no earlier pass broke or returned, the derivative test
    passes in pass [k], and after the update of pass [k] root [j] is reached
    while no root of lower index is. *)
Theorem kernel_leaves_at_root_iff (z0 : complex) (k j : nat) :
  newton roots 42 0 z0 = at_root k j <->
  (k < 42)%nat /\ keeps_going roots z0 k /\
  derivative_small roots (orbit roots k z0) = false /\
  exists root, roots !! j = Some root /\
    reached (orbit roots (S k) z0) root = true /\
    forall j' root', (j' < j)%nat -> roots !! j' = Some root' ->
      reached (orbit roots (S k) z0) root' = false.
Proof.
  destruct (newton_leave 42 0 z0) as (Hr & _ & _). rewrite Hr. split.
  - intros (d & -> & Hd & Hk & Hsm & Hsc). apply scan_roots_from in Hsc.
    destruct Hsc as (d' & root & -> & Hl & Hroot & Hmin).
    split_and!; try assumption. exists root. split_and!; assumption.
  - intros (Hk42 & Hk & Hsm & root & Hl & Hroot & Hmin). exists k.
    split_and!; [reflexivity | exact Hk42 | exact Hk | exact Hsm |].
    apply scan_roots_from. exists j, root. split_and!; [reflexivity | assumption ..].
Qed.

(** X2: the kernel uses up its budget exactly when none of the 42 passes
    breaks or returns; it has then made 42 updates and returns [DARKGREEN]. *)
Theorem kernel_exhausts_budget_iff (colors : list color) (z0 : complex) :
  (newton roots 42 0 z0 = at_end <-> keeps_going roots z0 42) /\
  (keeps_going roots z0 42 ->
     updates_done (newton roots 42 0 z0) = 42%nat /\
     calculate_single_pixel ColorBrightness z0 roots colors = Some DARKGREEN).
Proof.
  destruct (newton_leave 42 0 z0) as (_ & _ & He). split; [exact He|].
  intros Hk. apply He in Hk. unfold calculate_single_pixel.
  change (Z.to_nat max_iteration) with 42%nat. rewrite Hk. split; reflexivity.
Qed.

(** X3: the kernel breaks in pass [k] exactly when [k] is below 42, no earlier
    pass broke or returned, and the derivative is small at the [k]-th
    iterate; it has then made [k] updates and returns [DARKGREEN]. *)
Theorem kernel_breaks_iff (colors : list color) (z0 : complex) (k : nat) :
  (newton roots 42 0 z0 = at_break k <->
   (k < 42)%nat /\ keeps_going roots z0 k /\
   derivative_small roots (orbit roots k z0) = true) /\
  (newton roots 42 0 z0 = at_break k ->
     updates_done (newton roots 42 0 z0) = k /\
     calculate_single_pixel ColorBrightness z0 roots colors = Some DARKGREEN).
Proof.
  destruct (newton_leave 42 0 z0) as (_ & Hb & _). split.
  - rewrite Hb. split.
    + intros (d & -> & Hd & Hk & Hsm). split_and!; assumption.
    + intros (Hk42 & Hk & Hsm). exists k. split_and!; [reflexivity | assumption ..].
  - intros Hn. unfold calculate_single_pixel.
    change (Z.to_nat max_iteration) with 42%nat. rewrite Hn. split; reflexivity.
Qed.

(** X4: whatever the starting value, a colour returned by the kernel is
    [DARKGREEN] or the brightened colour of one of the roots of the table:
    at most [n + 1] colours occur in an image. *)
Theorem kernel_palette (colors : list color) (z : complex) (c : Color) :
  calculate_single_pixel ColorBrightness z roots colors = Some c ->
  c = DARKGREEN \/
  exists j clr, (j < length roots)%nat /\ colors !! j = Some clr /\
                c = ColorBrightness (to_raylib clr) (brightness_factor j).
Proof.
  unfold calculate_single_pixel.
  destruct (newton roots _ 0 z) as [k j| k |] eqn:Hn.
  - destruct (colors !! j) as [clr|] eqn:Hclr; [|intros [=]].
    intros [= <-]. right. exists j, clr.
    split_and!; [exact (newton_root_bound roots _ _ _ _ _ Hn) | exact Hclr | reflexivity].
  - intros [= <-]. left. reflexivity.
  - intros [= <-]. left. reflexivity.
Qed.

End KernelExits.

(** X5: with an empty root table no root can be reached: the kernel returns
    [DARKGREEN] for every starting value, whatever the colour table. *)
Theorem kernel_without_roots `{lib : StdComplex}
        (ColorBrightness : Color -> IEEE.float -> Color) (colors : list color) (z : complex) :
  calculate_single_pixel ColorBrightness z [] colors = Some DARKGREEN.
Proof.
  unfold calculate_single_pixel.
  destruct (newton [] _ 0 z) as [k j| k |] eqn:Hn; try reflexivity.
  apply newton_root_bound in Hn. cbn in Hn. lia.
Qed.

Lemma kernel_leaves_at_root_iff_witness :
  newton roots_of_2 42 0 (z_of (-3) 0) = at_root 4 1 /\
  keeps_going roots_of_2 (z_of (-3) 0) 4.
Proof.
  assert (Hn : newton roots_of_2 42 0 (z_of (-3) 0) = at_root 4 1) by (vm_compute; reflexivity).
  split; [exact Hn|].
  destruct (proj1 (kernel_leaves_at_root_iff roots_of_2 (z_of (-3) 0) 4 1) Hn) as (_ & Hk & _).
  exact Hk.
Defined.

Lemma kernel_exhausts_budget_iff_witness :
  newton roots_of_2 42 0 (z_of 0 2) = at_end /\
  calculate_single_pixel Reference.ColorBrightness (z_of 0 2) roots_of_2 (set_colors 2)
  = Some DARKGREEN.
Proof.
  assert (Hn : newton roots_of_2 42 0 (z_of 0 2) = at_end) by (vm_compute; reflexivity).
  split; [exact Hn|].
  destruct (kernel_exhausts_budget_iff Reference.ColorBrightness roots_of_2 (set_colors 2)
              (z_of 0 2)) as [Hiff Hres].
  exact (proj2 (Hres (proj1 Hiff Hn))).
Defined.

Lemma kernel_breaks_iff_witness :
  newton roots_of_2 42 0 (z_of 0 1) = at_break 1 /\
  derivative_small roots_of_2 (orbit roots_of_2 1 (z_of 0 1)) = true.
Proof.
  assert (Hn : newton roots_of_2 42 0 (z_of 0 1) = at_break 1) by (vm_compute; reflexivity).
  split; [exact Hn|].
  destruct (kernel_breaks_iff Reference.ColorBrightness roots_of_2 (set_colors 2)
              (z_of 0 1) 1) as [Hiff _].
  exact (proj2 (proj2 (proj1 Hiff Hn))).
Defined.

Lemma kernel_palette_witness :
  {| r := 224; g := 182; b := 255; a := 255 |} = DARKGREEN \/
  exists j clr, (j < length roots_of_2)%nat /\ set_colors 2 !! j = Some clr /\
    {| r := 224; g := 182; b := 255; a := 255 |}
    = Reference.ColorBrightness (to_raylib clr) (brightness_factor j).
Proof.
  apply (kernel_palette Reference.ColorBrightness roots_of_2 (set_colors 2) (z_of (-3) 0)).
  vm_compute. reflexivity.
Defined.

(** ** More on the colour table *)

Lemma bump_channel (c0 k : Z) :
  0 <= k ->
  ((c0 + 100 * k) mod 255 + 100) mod 255 = (c0 + 100 * (k + 1)) mod 255.
Proof.
  intros Hk. rewrite Z.add_mod_idemp_l by lia. f_equal. lia.
Qed.

(** The running colour in closed form. *)
Lemma current_at_closed (i : nat) :
  (4 <= i)%nat ->
  current_at i =
  {| cr := (245 + 100 * red_moves (Z.of_nat i)) mod 255;
     cg := (109 + 100 * green_moves (Z.of_nat i)) mod 255;
     cb := (194 + 100 * blue_moves (Z.of_nat i)) mod 255;
     ca := 0 |}.
Proof.
  induction i as [|i IH]; [lia|]. intros Hi.
  destruct (decide (i = 3%nat)) as [->|Hne]; [reflexivity|].
  specialize (IH ltac:(lia)).
  destruct (current_at_ok i ltac:(lia)) as (Hr & Hg & Hb & _).
  rewrite current_at_next by lia. unfold advance.
  assert (Hrem : Z.rem (Z.of_nat (S i)) 3 = Z.of_nat (S i) mod 3)
    by (apply Z.rem_mod_nonneg; lia).
  rewrite Hrem.
  destruct (shift_channel_mod _ Hr) as [Er _].
  destruct (shift_channel_mod _ Hg) as [Eg _].
  destruct (shift_channel_mod _ Hb) as [Eb _].
  rewrite IH in Er, Eg, Eb. cbn [cr cg cb ca] in Er, Eg, Eb.
  unfold red_moves, green_moves, blue_moves in *.
  assert (Hcase : Z.of_nat (S i) mod 3 = 0 \/ Z.of_nat (S i) mod 3 = 1 \/
                  Z.of_nat (S i) mod 3 = 2)
    by (pose proof (Z.mod_pos_bound (Z.of_nat (S i)) 3 ltac:(lia)); lia).
  destruct Hcase as [Hm|[Hm|Hm]]; rewrite Hm; cbn [Z.eqb Pos.eqb]; rewrite IH; cbn [cr cg cb ca].
  - rewrite Er, bump_channel by (Z.div_mod_to_equations; lia).
    f_equal; f_equal; Z.div_mod_to_equations; lia.
  - rewrite Eg, bump_channel by (Z.div_mod_to_equations; lia).
    f_equal; f_equal; Z.div_mod_to_equations; lia.
  - rewrite Eb, bump_channel by (Z.div_mod_to_equations; lia).
    f_equal; f_equal; Z.div_mod_to_equations; lia.
Qed.

(** The generated entries in closed form. *)
Lemma set_colors_entry_closed (n i : nat) :
  (5 <= i < n)%nat ->
  set_colors n !! i =
  Some {| cr := (245 + 100 * (Z.of_nat i / 3 - 1)) mod 255;
          cg := (109 + 100 * ((Z.of_nat i - 1) / 3 - 1)) mod 255;
          cb := (194 + 100 * ((Z.of_nat i + 1) / 3 - 1)) mod 255;
          ca := 0 |}.
Proof.
  intros Hi. destruct (set_colors_table_facts n) as (_ & _ & _ & Hhigh).
  rewrite Hhigh by exact Hi. rewrite current_at_closed by lia. reflexivity.
Qed.

(** X6: entry [i >= 5] of the colour table in closed form: the red channel
    has been moved [i/3 - 1] times, the green one [(i-1)/3 - 1] times and the
    blue one [(i+1)/3 - 1] times by 100 modulo 255 from [{245, 109, 194}],
    and the fourth component is 0. *)
Theorem set_colors_closed_form (n i : nat) :
  Z.of_nat n <= INT_MAX -> (5 <= i < n)%nat ->
  set_colors n !! i =
  Some {| cr := (245 + 100 * (Z.of_nat i / 3 - 1)) mod 255;
          cg := (109 + 100 * ((Z.of_nat i - 1) / 3 - 1)) mod 255;
          cb := (194 + 100 * ((Z.of_nat i + 1) / 3 - 1)) mod 255;
          ca := 0 |}.
Proof.
  intros _ Hi. apply set_colors_entry_closed. exact Hi.
Qed.

Lemma set_colors_closed_form_witness :
  set_colors 9 !! 8%nat = Some {| cr := 90; cg := 209; cb := 139; ca := 0 |}.
Proof.
  exact (set_colors_closed_form 9 8 ltac:(unfold INT_MAX; lia) ltac:(lia)).
Defined.

(** X7: the generated colours repeat with period 153: from index 5 on, the
    roots [i] and [i + 153] get the same colour, so a table has at most 153
    different generated colours. *)
Theorem set_colors_period (n i : nat) :
  Z.of_nat n <= INT_MAX -> (5 <= i)%nat -> (i + 153 < n)%nat ->
  set_colors n !! (i + 153)%nat = set_colors n !! i.
Proof.
  intros Hn Hi Hin.
  rewrite !set_colors_entry_closed by lia.
  replace (Z.of_nat (i + 153)) with (Z.of_nat i + 51 * 3) by lia.
  replace (Z.of_nat i + 51 * 3 - 1) with (Z.of_nat i - 1 + 51 * 3) by lia.
  replace (Z.of_nat i + 51 * 3 + 1) with (Z.of_nat i + 1 + 51 * 3) by lia.
  rewrite !Z.div_add by lia.
  f_equal. f_equal.
  - replace (245 + 100 * (Z.of_nat i / 3 + 51 - 1))
      with (245 + 100 * (Z.of_nat i / 3 - 1) + 20 * 255) by lia.
    apply Z.mod_add. lia.
  - replace (109 + 100 * ((Z.of_nat i - 1) / 3 + 51 - 1))
      with (109 + 100 * ((Z.of_nat i - 1) / 3 - 1) + 20 * 255) by lia.
    apply Z.mod_add. lia.
  - replace (194 + 100 * ((Z.of_nat i + 1) / 3 + 51 - 1))
      with (194 + 100 * ((Z.of_nat i + 1) / 3 - 1) + 20 * 255) by lia.
    apply Z.mod_add. lia.
Qed.

Lemma set_colors_period_witness :
  set_colors 160 !! 158%nat = set_colors 160 !! 5%nat.
Proof.
  exact (set_colors_period 160 5 ltac:(unfold INT_MAX; lia) ltac:(lia) ltac:(lia)).
Defined.

(** X8: the colour of a root does not depend on the number of roots: the
    table for [m] roots is the table for [n >= m] roots cut to [m] entries. *)
Theorem set_colors_prefix (m n : nat) :
  Z.of_nat n <= INT_MAX -> (m <= n)%nat ->
  take m (set_colors n) = set_colors m.
Proof.
  intros _ Hmn.
  destruct (set_colors_table_facts n) as (Hln & _ & Hlown & Hhighn).
  destruct (set_colors_table_facts m) as (Hlm & _ & Hlowm & Hhighm).
  apply list_eq. intros i.
  destruct (decide (i < m)%nat) as [Hi|Hi].
  - rewrite lookup_take_lt by exact Hi.
    destruct (decide (i < 5)%nat) as [H5|H5].
    + rewrite Hlown, Hlowm by lia. reflexivity.
    + rewrite Hhighn, Hhighm by lia. reflexivity.
  - rewrite lookup_take_ge by lia. symmetry. apply lookup_ge_None_2. lia.
Qed.

Lemma set_colors_prefix_witness : take 6 (set_colors 9) = set_colors 6.
Proof.
  exact (set_colors_prefix 6 9 ltac:(unfold INT_MAX; lia) ltac:(lia)).
Defined.

(** X9: every component of every entry of the colour table is between 0
    and 255, so [to_raylib] copies it into an [unsigned char] unchanged; a
    generated entry never has a channel of 255. *)
Theorem set_colors_components (n i : nat) (c : color) :
  Z.of_nat n <= INT_MAX -> set_colors n !! i = Some c ->
  color_ok c /\
  ((5 <= i)%nat -> 0 <= cr c < 255 /\ 0 <= cg c < 255 /\ 0 <= cb c < 255).
Proof.
  intros Hn Hc.
  destruct (set_colors_table_facts n) as (Hlen & _ & Hlow & Hhigh).
  assert (Hi : (i < n)%nat) by (rewrite <- Hlen; eapply lookup_lt_Some; exact Hc).
  destruct (decide (i < 5)%nat) as [H5|H5].
  - rewrite Hlow in Hc by lia. split; [|lia].
    destruct i as [|[|[|[|[|i]]]]]; try lia; cbn in Hc; injection Hc as <-;
      unfold color_ok, channel_ok; cbn; lia.
  - rewrite set_colors_entry_closed in Hc by lia. injection Hc as <-.
    cbn [cr cg cb ca].
    pose proof (Z.mod_pos_bound (245 + 100 * (Z.of_nat i / 3 - 1)) 255 ltac:(lia)).
    pose proof (Z.mod_pos_bound (109 + 100 * ((Z.of_nat i - 1) / 3 - 1)) 255 ltac:(lia)).
    pose proof (Z.mod_pos_bound (194 + 100 * ((Z.of_nat i + 1) / 3 - 1)) 255 ltac:(lia)).
    unfold color_ok, channel_ok. cbn [cr cg cb ca]. split; [|intros _]; lia.
Qed.

Lemma set_colors_components_witness :
  color_ok {| cr := 90; cg := 209; cb := 139; ca := 0 |}.
Proof.
  exact (proj1 (set_colors_components 9 8 _ ltac:(unfold INT_MAX; lia) eq_refl)).
Defined.

(** ** More on the viewport *)

Lemma fsub_nan x y : y = S754_nan \/ x = S754_nan -> IEEE.fsub x y = S754_nan.
Proof. intros [->| ->]; [|reflexivity]. destruct x; reflexivity. Qed.

Lemma dadd_nan_r x : IEEE.dadd x S754_nan = S754_nan.
Proof. destruct x; reflexivity. Qed.

Lemma dsub_nan_r x : IEEE.dsub x S754_nan = S754_nan.
Proof. destruct x; reflexivity. Qed.

Lemma dadd_nan_l y : IEEE.dadd S754_nan y = S754_nan.
Proof. reflexivity. Qed.

Lemma dsub_nan_l y : IEEE.dsub S754_nan y = S754_nan.
Proof. reflexivity. Qed.

(** [zoom] turns both bounds of an axis with a NaN bound into NaN. *)
Lemma zoom_nan (t : area ieee) (f : IEEE.float) :
  (nan_x t -> lower_x (zoom ieee t f) = S754_nan /\ upper_x (zoom ieee t f) = S754_nan) /\
  (nan_y t -> lower_y (zoom ieee t f) = S754_nan /\ upper_y (zoom ieee t f) = S754_nan).
Proof.
  unfold zoom, nan_x, nan_y.
  cbn [lower_x upper_x lower_y upper_y f_sub f_mul widen narrow d_add d_sub d_div ieee].
  split; intros Hn; apply fsub_nan in Hn; rewrite Hn;
    change (IEEE.to_double S754_nan) with S754_nan;
    change (IEEE.ddiv S754_nan (two ieee)) with S754_nan;
    rewrite dadd_nan_r, dsub_nan_l; split; reflexivity.
Qed.

Lemma step_nan (step : IEEE.double) :
  minus_step ieee S754_nan step = S754_nan /\ plus_step ieee S754_nan step = S754_nan.
Proof. split; reflexivity. Qed.

Lemma handle_keys_nan (k : keys) (s : nav ieee) :
  (nan_x (target_area s) -> nan_x (target_area (handle_keys ieee k s))) /\
  (nan_y (target_area s) -> nan_y (target_area (handle_keys ieee k s))).
Proof.
  assert (Hzoom : forall f (s : nav ieee),
            (nan_x (target_area s) -> nan_x (target_area (do_zoom ieee f s))) /\
            (nan_y (target_area s) -> nan_y (target_area (do_zoom ieee f s)))).
  { intros f s0. destruct (zoom_nan (target_area s0) (narrow ieee f)) as [Hx Hy].
    split; intros Hn; left; [apply Hx | apply Hy]; exact Hn. }
  assert (Hmove : forall (op : IEEE.float -> IEEE.double -> IEEE.float) (s : nav ieee),
            (forall step, op S754_nan step = S754_nan) ->
            ((nan_x (target_area s) -> nan_x (target_area (move_x ieee op s))) /\
             (nan_y (target_area s) -> nan_y (target_area (move_x ieee op s)))) /\
            ((nan_x (target_area s) -> nan_x (target_area (move_y ieee op s))) /\
             (nan_y (target_area s) -> nan_y (target_area (move_y ieee op s))))).
  { intros op s0 Hop. unfold nan_x, nan_y, move_x, move_y.
    cbn [target_area lower_x upper_x lower_y upper_y].
    split_and!; intros [Hn|Hn]; rewrite ?Hn, ?Hop; auto. }
  assert (Hminus : forall step, minus_step ieee S754_nan step = S754_nan) by reflexivity.
  assert (Hplus : forall step, plus_step ieee S754_nan step = S754_nan) by reflexivity.
  unfold handle_keys.
  destruct k as [up down w sk ak dk]; cbn [KEY_UP KEY_DOWN KEY_W KEY_S KEY_A KEY_D].
  set (s1 := on_key ieee up (do_zoom ieee (zoom_in_factor ieee)) s).
  assert (H1 : (nan_x (target_area s) -> nan_x (target_area s1)) /\
               (nan_y (target_area s) -> nan_y (target_area s1)))
    by (unfold s1; destruct up; [apply Hzoom | split; trivial]).
  set (s2 := on_key ieee down (do_zoom ieee (zoom_out_factor ieee)) s1).
  assert (H2 : (nan_x (target_area s1) -> nan_x (target_area s2)) /\
               (nan_y (target_area s1) -> nan_y (target_area s2)))
    by (unfold s2; destruct down; [apply Hzoom | split; trivial]).
  set (s3 := on_key ieee w (move_y ieee (minus_step ieee)) s2).
  assert (H3 : (nan_x (target_area s2) -> nan_x (target_area s3)) /\
               (nan_y (target_area s2) -> nan_y (target_area s3)))
    by (unfold s3; destruct w; [apply Hmove, Hminus | split; trivial]).
  set (s4 := on_key ieee sk (move_y ieee (plus_step ieee)) s3).
  assert (H4 : (nan_x (target_area s3) -> nan_x (target_area s4)) /\
               (nan_y (target_area s3) -> nan_y (target_area s4)))
    by (unfold s4; destruct sk; [apply Hmove, Hplus | split; trivial]).
  set (s5 := on_key ieee ak (move_x ieee (minus_step ieee)) s4).
  assert (H5 : (nan_x (target_area s4) -> nan_x (target_area s5)) /\
               (nan_y (target_area s4) -> nan_y (target_area s5)))
    by (unfold s5; destruct ak; [apply Hmove, Hminus | split; trivial]).
  assert (H6 : (nan_x (target_area s5) ->
                nan_x (target_area (on_key ieee dk (move_x ieee (plus_step ieee)) s5))) /\
               (nan_y (target_area s5) ->
                nan_y (target_area (on_key ieee dk (move_x ieee (plus_step ieee)) s5))))
    by (destruct dk; [apply Hmove, Hplus | split; trivial]).
  split; intros Hn; [apply H6, H5, H4, H3, H2, H1, Hn | apply H6, H5, H4, H3, H2, H1, Hn].
Qed.

Lemma nan_not_positive (t : area ieee) : nan_x t \/ nan_y t -> ~ positive_extent ieee t.
Proof.
  unfold positive_extent, nan_x, nan_y. cbn [f_lt ieee].
  intros [[Hn|Hn]|[Hn|Hn]] [Hx Hy]; rewrite Hn in *.
  - discriminate Hx.
  - destruct (lower_x t); discriminate Hx.
  - discriminate Hy.
  - destruct (lower_y t); discriminate Hy.
Qed.

(** X10: in the arithmetic the program runs, a NaN bound is never lost: once
    an axis of the viewport has a NaN bound, it has one after every further
    pass of the display loop, whatever keys are down, and the viewport never
    has positive extents again. *)
Theorem nan_viewport_stays (s : nav ieee) (ks : list keys) :
  nan_x (target_area s) \/ nan_y (target_area s) ->
  (nan_x (target_area s) -> nan_x (target_area (navigate_from s ks))) /\
  (nan_y (target_area s) -> nan_y (target_area (navigate_from s ks))) /\
  ~ positive_extent ieee (target_area (navigate_from s ks)).
Proof.
  intros Hs.
  assert (H : (nan_x (target_area s) -> nan_x (target_area (navigate_from s ks))) /\
              (nan_y (target_area s) -> nan_y (target_area (navigate_from s ks)))).
  { clear Hs. unfold navigate_from. revert s.
    induction ks as [|k ks IH]; intros s; [split; trivial|].
    cbn [fold_left]. destruct (IH (handle_keys ieee k s)) as [IHx IHy].
    destruct (handle_keys_nan k s) as [Hx Hy].
    split; intros Hn; [apply IHx, Hx, Hn | apply IHy, Hy, Hn]. }
  destruct H as [Hx Hy]. split; [exact Hx|]. split; [exact Hy|].
  apply nan_not_positive. destruct Hs as [Hn|Hn]; [left; apply Hx, Hn | right; apply Hy, Hn].
Qed.

Lemma after_zoom_out_918_nan :
  lower_x (after_zoom_out 918) = S754_nan /\ lower_y (after_zoom_out 918) = S754_nan.
Proof. split; vm_compute; reflexivity. Qed.

Lemma nan_viewport_stays_witness :
  ~ positive_extent ieee
      (target_area (navigate ieee (repeat only_down 918 ++ [only_up; only_up]))).
Proof.
  unfold navigate. rewrite fold_left_app.
  apply (nan_viewport_stays (navigate ieee (repeat only_down 918)) [only_up; only_up]).
  left. left. exact (proj1 after_zoom_out_918_nan).
Defined.






(** ** More on the pixel mapping and the raster assembler *)

Lemma fadd_nan_r x : IEEE.fadd x S754_nan = S754_nan.
Proof. destruct x; reflexivity. Qed.

Lemma fmul_nan_r x : IEEE.fmul x S754_nan = S754_nan.
Proof. destruct x; reflexivity. Qed.

(** X14: a NaN bound of the viewport reaches every pixel: with a NaN bound
    along x the real part of every pixel's complex number is NaN, and with a
    NaN bound along y both parts are. *)
Theorem pixel_to_complex_nan (t : area ieee) (x y w h : Z) :
  (nan_x t -> re (pixel_to_complex t x y w h) = S754_nan) /\
  (nan_y t -> re (pixel_to_complex t x y w h) = S754_nan /\
              im (pixel_to_complex t x y w h) = S754_nan).
Proof.
  unfold pixel_to_complex. cbn [re im].
  split.
  - intros Hn.
    assert (Hzx : IEEE.fadd (IEEE.fmul (IEEE.fdiv (IEEE.float_of_Z x) (IEEE.float_of_Z w))
                               (IEEE.fsub (upper_x t) (lower_x t))) (lower_x t) = S754_nan).
    { destruct Hn as [Hn|Hn]; rewrite Hn.
      - apply fadd_nan_r.
      - change (IEEE.fsub S754_nan (lower_x t)) with S754_nan. rewrite fmul_nan_r. reflexivity. }
    rewrite Hzx. apply fadd_nan_r.
  - intros Hn.
    assert (Hzy : IEEE.fadd (IEEE.fmul (IEEE.fdiv (IEEE.float_of_Z y) (IEEE.float_of_Z h))
                               (IEEE.fsub (upper_y t) (lower_y t))) (lower_y t) = S754_nan).
    { destruct Hn as [Hn|Hn]; rewrite Hn.
      - apply fadd_nan_r.
      - change (IEEE.fsub S754_nan (lower_y t)) with S754_nan. rewrite fmul_nan_r. reflexivity. }
    rewrite Hzy. rewrite !fmul_nan_r. split; reflexivity.
Qed.

Lemma pixel_to_complex_nan_witness :
  re (pixel_to_complex (after_zoom_out 918) 100 200 512 512) = S754_nan.
Proof.
  apply (proj1 (pixel_to_complex_nan (after_zoom_out 918) 100 200 512 512)).
  left. exact (proj1 after_zoom_out_918_nan).
Defined.

(** The image the constructor builds fits when the product does not wrap. *)
Lemma new_image_data_fits (w h : Z) :
  0 <= w -> 0 <= h -> w * h * 4 < 2 ^ 32 -> image_fits (new_image_data w h).
Proof.
  intros Hw Hh Hs. unfold image_fits, new_image_data. cbn [width height pixels].
  rewrite length_replicate. unfold unsigned. rewrite Z.mod_small by nia.
  split_and!; [lia | lia | lia | reflexivity].
Qed.

Section RasterMore.

Context {lib : StdComplex}.
Variable ColorBrightness : Color -> IEEE.float -> Color.
Variable target : area ieee.
Variable roots : list float2.
Variable colors : list color.

Hypothesis every_root_has_a_color : (length roots <= length colors)%nat.

(** What a pass of [calculate_pixels] on a fitting image gives: a fitting
    image of the same dimensions, the same for every fitting image of these
    dimensions. *)
Lemma calculate_pixels_fitting (img : image_data) :
  image_fits img ->
  exists img',
    calculate_pixels ColorBrightness img target roots colors = Some img' /\
    image_fits img' /\ width img' = width img /\ height img' = height img /\
    (forall p, 0 <= p < width img * height img ->
       pixel_stored ColorBrightness target roots colors (width img) (height img)
         (pixels img') p) /\
    (forall old, image_fits old -> width old = width img -> height old = height img ->
       calculate_pixels ColorBrightness old target roots colors = Some img').
Proof.
  intros (Hw & Hh & Hsize & Hlen).
  destruct (raster_loops ColorBrightness target roots colors _ _ Hw Hh Hsize
              every_root_has_a_color (pixels img) Hlen) as (buf & Hrun & Hl & Hall).
  exists {| width := width img; height := height img; pixels := buf |}.
  split; [unfold calculate_pixels; rewrite Hrun; reflexivity|].
  cbn [width height pixels]. split_and!; try reflexivity.
  - unfold image_fits. cbn [width height pixels]. split_and!; assumption.
  - exact Hall.
  - intros old (Hw' & Hh' & Hsize' & Hlen') Ew Eh. rewrite Ew, Eh in Hlen'.
    destruct (raster_loops ColorBrightness target roots colors _ _ Hw Hh Hsize
                every_root_has_a_color (pixels old) Hlen') as (buf2 & Hrun2 & Hl2 & Hall2).
    unfold calculate_pixels. rewrite Ew, Eh, Hrun2. cbn [mbind option_bind].
    do 2 f_equal.
    exact (stored_buffers_equal ColorBrightness target roots colors _ _
             buf2 buf Hl2 Hl Hall2 Hall).
Qed.

(** X15: the image [image_data]'s constructor builds is fit for
    [calculate_pixels] whenever [width*height*4] does not wrap in [unsigned]:
    it has that many bytes, all zero, and the pass on it succeeds and stores
    every pixel. *)
Theorem fresh_image_renders (w h : Z) :
  0 <= w -> 0 <= h -> w * h * 4 < 2 ^ 32 ->
  pixels (new_image_data w h) = replicate (Z.to_nat (w * h * 4)) 0 /\
  exists img',
    calculate_pixels ColorBrightness (new_image_data w h) target roots colors = Some img' /\
    width img' = w /\ height img' = h /\
    length (pixels img') = Z.to_nat (w * h * 4) /\
    forall p, 0 <= p < w * h ->
      pixel_stored ColorBrightness target roots colors w h (pixels img') p.
Proof.
  intros Hw Hh Hs. split.
  - unfold new_image_data, unsigned. cbn [pixels]. rewrite Z.mod_small by nia. reflexivity.
  - destruct (calculate_pixels_fitting (new_image_data w h) (new_image_data_fits w h Hw Hh Hs))
      as (img' & Hrun & (_ & _ & _ & Hlen) & Ew & Eh & Hall & _).
    cbn [width height] in Ew, Eh, Hall.
    exists img'. rewrite Ew, Eh in Hlen. split_and!; assumption.
Qed.

End RasterMore.

Lemma for_loop_fails {S : Type} (P : Z -> S -> Prop) (body : Z -> S -> option S)
      (count : nat) (i0 j : Z) (s : S) :
  i0 <= j < i0 + Z.of_nat count ->
  P i0 s ->
  (forall i s, i0 <= i < j -> P i s -> exists s', body i s = Some s' /\ P (i + 1) s') ->
  (forall s, P j s -> body j s = None) ->
  for_loop count i0 body s = None.
Proof.
  revert i0 s. induction count as [|count IH]; intros i0 s Hj H0 Hstep Hfail; [lia|].
  cbn [for_loop]. destruct (decide (i0 = j)) as [->|Hne].
  - rewrite (Hfail s H0). reflexivity.
  - destruct (Hstep i0 s ltac:(lia) H0) as (s1 & Hb & H1). rewrite Hb.
    apply IH; [lia | exact H1 | intros i s2 Hi; apply Hstep; lia | exact Hfail].
Qed.

Lemma store_outside (i x : Z) (v : list Z) :
  Z.of_nat (length v) <= i -> store i x v = None.
Proof. intros Hi. unfold store. destruct (decide _); [lia | reflexivity]. Qed.

Section RasterShort.

Context {lib : StdComplex}.
Variable ColorBrightness : Color -> IEEE.float -> Color.
Variable target : area ieee.
Variable roots : list float2.
Variable colors : list color.
Variables w h : Z.

Hypothesis every_root_has_a_color : (length roots <= length colors)%nat.

(** The body of the inner loop on a buffer that may be too short: it keeps
    the length when the four bytes of the pixel are inside, and makes an
    undefined store when the first of them is outside. *)
Lemma pixel_pass_short (x y : Z) (buf : list Z) :
  0 <= y * w + x -> Z.of_nat (length buf) < 2 ^ 32 ->
  (4 * (y * w + x) + 3 < Z.of_nat (length buf) ->
   exists buf',
     (pixel_color ← calculate_single_pixel ColorBrightness
                       (pixel_to_complex target x y w h) roots colors;
      write_pixel w x y pixel_color buf) = Some buf' /\ length buf' = length buf) /\
  (Z.of_nat (length buf) <= 4 * (y * w + x) -> 4 * (y * w + x) < 2 ^ 64 ->
   (pixel_color ← calculate_single_pixel ColorBrightness
                     (pixel_to_complex target x y w h) roots colors;
    write_pixel w x y pixel_color buf) = None).
Proof.
  intros Hp Hlen.
  destruct (calculate_single_pixel_total ColorBrightness
              (pixel_to_complex target x y w h) roots colors every_root_has_a_color)
    as (c & Hc & _).
  rewrite Hc. cbn [mbind option_bind]. split.
  - intros Hin. rewrite write_pixel_in_range by lia. cbv zeta.
    eexists. split; [reflexivity|]. rewrite !length_insert. reflexivity.
  - intros Hout Hmax. unfold write_pixel.
    assert (E0 : size_t (size_t (y * w + x) * 4) = 4 * (y * w + x))
      by (unfold size_t; rewrite (Z.mod_small (y * w + x)) by lia;
          rewrite Z.mod_small by lia; lia).
    rewrite E0, store_outside by lia. reflexivity.
Qed.

(** The two loops on a buffer of [4*q] bytes with [q] below the number of
    pixels: pixel [q] is stored outside the buffer. *)
Lemma raster_loops_short (q : Z) (buf : list Z) :
  0 < w -> 0 <= q < w * h -> 4 * q < 2 ^ 32 ->
  Z.of_nat (length buf) = 4 * q ->
  for_loop (Z.to_nat h) 0 (fun y buf =>
    for_loop (Z.to_nat w) 0 (fun x buf =>
      pixel_color ← calculate_single_pixel ColorBrightness
                       (pixel_to_complex target x y w h) roots colors;
      write_pixel w x y pixel_color buf) buf) buf = None.
Proof.
  intros Hw Hq Hq32 Hlen.
  pose proof (Z.div_mod q w ltac:(lia)) as Hdm.
  pose proof (Z.mod_pos_bound q w Hw) as Hm.
  set (y0 := q / w) in *. set (x0 := q mod w) in *.
  assert (Hy0 : 0 <= y0 < h) by (split; [apply Z.div_pos; lia | apply Z.div_lt_upper_bound; lia]).
  apply (for_loop_fails (fun _ b => Z.of_nat (length b) = 4 * q) _ _ 0 y0).
  - lia.
  - exact Hlen.
  - intros y b Hy Hb.
    destruct (for_loop_invariant
                (fun _ b => Z.of_nat (length b) = 4 * q)
                (fun x buf =>
                   pixel_color ← calculate_single_pixel ColorBrightness
                                    (pixel_to_complex target x y w h) roots colors;
                   write_pixel w x y pixel_color buf)
                (Z.to_nat w) 0 b Hb) as (b' & Hrow & Hb').
    + intros x b1 Hx Hb1.
      destruct (pixel_pass_short x y b1 ltac:(nia) ltac:(lia)) as [Hin _].
      destruct Hin as (b2 & Hrun & Hl2); [nia|].
      exists b2. split; [exact Hrun | lia].
    + exists b'. split; [exact Hrow | exact Hb'].
  - intros b Hb.
    apply (for_loop_fails (fun _ b => Z.of_nat (length b) = 4 * q) _ _ 0 x0).
    + lia.
    + exact Hb.
    + intros x b1 Hx Hb1.
      destruct (pixel_pass_short x y0 b1 ltac:(nia) ltac:(lia)) as [Hin _].
      destruct Hin as (b2 & Hrun & Hl2); [nia|].
      exists b2. split; [exact Hrun | lia].
    + intros b1 Hb1.
      destruct (pixel_pass_short x0 y0 b1 ltac:(nia) ltac:(lia)) as [_ Hout].
      apply Hout; nia.
Qed.

(** X16: when [width*height*4] does not fit [unsigned], the constructor of
    [image_data] allocates the wrapped product, which is too short, and
    [calculate_pixels] on that image stores a pixel outside the buffer. *)
Theorem wrapped_image_overruns :
  0 < w < 2 ^ 32 -> 0 < h < 2 ^ 32 -> 2 ^ 32 <= w * h * 4 ->
  Z.of_nat (length (pixels (new_image_data w h))) < w * h * 4 /\
  calculate_pixels ColorBrightness (new_image_data w h) target roots colors = None.
Proof.
  intros Hw Hh Hwrap.
  pose proof (Z.mod_pos_bound (w * h * 4) (2 ^ 32) ltac:(lia)) as Hm.
  assert (Hlen : Z.of_nat (length (pixels (new_image_data w h))) = (w * h * 4) mod 2 ^ 32)
    by (unfold new_image_data, unsigned; cbn [pixels]; rewrite length_replicate; lia).
  split; [lia|].
  assert (H4 : (w * h * 4) mod 2 ^ 32 = 4 * ((w * h) mod 2 ^ 30)).
  { replace (w * h * 4) with (4 * (w * h)) by lia.
    change (2 ^ 32) with (4 * 2 ^ 30). rewrite Z.mul_mod_distr_l by lia. reflexivity. }
  pose proof (Z.mod_pos_bound (w * h) (2 ^ 30) ltac:(lia)) as Hq.
  unfold calculate_pixels. cbn [width height new_image_data].
  change (pixels {| width := w; height := h;
                    pixels := replicate (Z.to_nat (unsigned (w * h * 4))) 0 |})
    with (pixels (new_image_data w h)).
  rewrite (raster_loops_short ((w * h) mod 2 ^ 30)); [reflexivity | lia | nia | lia | lia].
Qed.

End RasterShort.

Lemma fresh_image_renders_witness :
  2 * 2 * 4 < 2 ^ 32 /\
  exists img',
    calculate_pixels Reference.ColorBrightness (new_image_data 2 2)
      (target_area (initial_nav ieee)) roots_of_2 (set_colors 2) = Some img' /\
    length (pixels img') = 16%nat.
Proof.
  split; [lia|].
  destruct (fresh_image_renders Reference.ColorBrightness
              (target_area (initial_nav ieee)) roots_of_2 (set_colors 2)
              ltac:(cbn; lia) 2 2 ltac:(lia) ltac:(lia) ltac:(lia))
    as (_ & img' & Hrun & _ & _ & Hlen & _).
  exists img'. split; [exact Hrun | exact Hlen].
Defined.

Lemma wrapped_image_overruns_witness :
  2 ^ 32 <= 32768 * 32768 * 4 /\
  calculate_pixels Reference.ColorBrightness (new_image_data 32768 32768)
    (target_area (initial_nav ieee)) roots_of_2 (set_colors 2) = None.
Proof.
  split; [lia|].
  apply (wrapped_image_overruns Reference.ColorBrightness
           (target_area (initial_nav ieee)) roots_of_2 (set_colors 2) 32768 32768
           ltac:(cbn; lia)); lia.
Defined.

(** ** Facts on the display loop and [main] *)

(** A pass with no key down leaves the navigation state as it is. *)
Lemma handle_keys_idle {A : arith} (k : keys) (s : nav A) :
  should_recompute k = false -> handle_keys A k s = s.
Proof.
  unfold should_recompute. intros Hk.
  repeat (apply orb_false_elim in Hk; destruct Hk as [Hk ?]).
  unfold handle_keys.
  repeat match goal with E : _ = false |- _ => rewrite E; clear E end.
  reflexivity.
Qed.

Lemma new_image_data_width (w h : Z) : width (new_image_data w h) = w.
Proof. reflexivity. Qed.

Lemma new_image_data_height (w h : Z) : height (new_image_data w h) = h.
Proof. reflexivity. Qed.

Section DisplayFacts.

Context {lib : StdComplex}.
Variable ColorBrightness : Color -> IEEE.float -> Color.
Variable Texture : Type.
Variable LoadTextureFromImage : image_data -> Texture.
Variable roots : list float2.
Variable colors : list color.

Hypothesis every_root_has_a_color : (length roots <= length colors)%nat.

Local Abbreviation render := (fun img t => calculate_pixels ColorBrightness img t roots colors).
Local Abbreviation loop :=
  (display_loop ColorBrightness Texture LoadTextureFromImage roots colors).

(** The loop started on an image that is the rendering of its viewport. *)
Lemma display_loop_shows_view (img0 : image_data) (ks : list keys) (d : display Texture) :
  image_fits img0 ->
  image_fits (image d) -> width (image d) = width img0 -> height (image d) = height img0 ->
  render img0 (target_area (view d)) = Some (image d) ->
  texture d = LoadTextureFromImage (image d) ->
  exists d',
    loop ks d = Some d' /\
    view d' = navigate_from (view d) ks /\
    render img0 (target_area (view d')) = Some (image d') /\
    texture d' = LoadTextureFromImage (image d').
Proof.
  intros Hfit0. revert d.
  induction ks as [|k ks IH]; intros d Hfit Hw Hh Hshown Htex.
  - exists d. split_and!; [reflexivity | reflexivity | exact Hshown | exact Htex].
  - cbn [display_loop]. unfold display_pass, navigate_from. cbn [fold_left].
    fold (navigate_from (handle_keys ieee k (view d)) ks).
    destruct (should_recompute k) eqn:Hk.
    + destruct (calculate_pixels_fitting ColorBrightness
                  (target_area (handle_keys ieee k (view d))) roots colors
                  every_root_has_a_color img0 Hfit0)
        as (img' & Hrun & Hfit' & Hw' & Hh' & _ & Hany).
      rewrite (Hany (image d) Hfit Hw Hh).
      apply IH; cbn [view image texture];
        [exact Hfit' | exact Hw' | exact Hh' | exact Hrun | reflexivity].
    + rewrite (handle_keys_idle k (view d) Hk) in *.
      apply (IH {| view := view d; image := image d; texture := texture d |});
        cbn [view image texture]; assumption.
Qed.

(** X17: the first rendering followed by [show_image_on_screen], as [main]
    chains them, on any image that fits: whatever the keys of the passes,
    no pass makes an undefined access, and after the last one the viewport
    is the one the keys lead to, the image is the rendering of that
    viewport, and the texture drawn is the one loaded from that image. *)
Theorem screen_shows_the_current_view
        (img0 : image_data) (target : area ieee) (ks : list keys) :
  image_fits img0 ->
  exists img_data d,
    render img0 target = Some img_data /\
    show_image_on_screen ColorBrightness Texture LoadTextureFromImage roots colors
      img_data target ks = Some d /\
    view d = navigate_from {| target_area := target; movement_step := d_lit ieee 1 10 |} ks /\
    render img0 (target_area (view d)) = Some (image d) /\
    texture d = LoadTextureFromImage (image d).
Proof.
  intros Hfit0.
  destruct (calculate_pixels_fitting ColorBrightness target roots colors
              every_root_has_a_color img0 Hfit0)
    as (img' & Hrun' & Hfit' & Hw' & Hh' & _ & _).
  exists img'.
  destruct (display_loop_shows_view img0 ks
              {| view := {| target_area := target; movement_step := d_lit ieee 1 10 |};
                 image := img'; texture := LoadTextureFromImage img' |}
              Hfit0 Hfit' Hw' Hh' Hrun' eq_refl) as (d & Hloop & Hview & Himg & Htex).
  exists d. split_and!; [exact Hrun' | exact Hloop | exact Hview | exact Himg | exact Htex].
Qed.

(** X18: passes with no key down change nothing: the loop neither calls
    [calculate_pixels] nor loads a texture, so it ends in the state it
    started in, whatever the image holds. *)
Theorem idle_passes_keep_display (ks : list keys) (d : display Texture) :
  Forall (fun k => should_recompute k = false) ks ->
  loop ks d = Some d.
Proof.
  intros Hidle. revert d. induction Hidle as [|k ks Hk _ IH]; intros d; [reflexivity|].
  cbn [display_loop]. unfold display_pass. rewrite Hk, (handle_keys_idle k (view d) Hk).
  destruct d as [v i t]. cbn [view image texture]. apply IH.
Qed.

End DisplayFacts.

(** X19: the C++ branch of [main] for every [n] that [main] lets through and
    every sequence of key states: the tables have [n] entries each, no
    vector is accessed outside its bounds, and when the window closes the
    512x512 image holds, pixel by pixel, the kernel's colour for the
    viewport the keys led to, with the texture loaded from it. *)
Theorem main_cpp_renders `{StdComplex} (ColorBrightness : Color -> IEEE.float -> Color)
        {Texture : Type} (LoadTextureFromImage : image_data -> Texture)
        (cexp : complex -> complex) (n : Z) (ks : list keys) :
  0 < n <= INT_MAX ->
  exists d,
    main_cpp ColorBrightness LoadTextureFromImage cexp n ks = Some d /\
    view d = navigate ieee ks /\
    texture d = LoadTextureFromImage (image d) /\
    width (image d) = 512 /\ height (image d) = 512 /\
    Z.of_nat (length (pixels (image d))) = 512 * 512 * 4 /\
    forall p, 0 <= p < 262144 ->
      pixel_stored ColorBrightness (target_area (navigate ieee ks))
        (calculate_roots cexp (Z.to_nat n)) (set_colors (Z.to_nat n)) 512 512
        (pixels (image d)) p.
Proof.
  intros Hn.
  assert (Hlen : (length (calculate_roots cexp (Z.to_nat n))
                  <= length (set_colors (Z.to_nat n)))%nat).
  { destruct (calculate_roots_entries cexp (Z.to_nat n) ltac:(lia)) as [-> _].
    destruct (set_colors_table_facts (Z.to_nat n)) as [-> _]. lia. }
  pose proof (new_image_data_fits 512 512 ltac:(lia) ltac:(lia) ltac:(lia)) as Hfit.
  unfold main_cpp. cbv zeta.
  destruct (calculate_pixels_fitting ColorBrightness (target_area (initial_nav ieee))
              _ _ Hlen _ Hfit) as (img & Hrun & _).
  rewrite Hrun.
  destruct (calculate_pixels_fitting ColorBrightness (target_area (initial_nav ieee))
              _ _ Hlen _ Hfit) as (img1 & Hrun1 & Hfit1 & Hw1 & Hh1 & _).
  rewrite Hrun in Hrun1. injection Hrun1 as <-.
  destruct (display_loop_shows_view ColorBrightness Texture LoadTextureFromImage
              _ _ Hlen (new_image_data 512 512) ks
              {| view := initial_nav ieee; image := img;
                 texture := LoadTextureFromImage img |}
              Hfit Hfit1 Hw1 Hh1 Hrun eq_refl)
    as (d & Hshow & Hview & Himg & Htex).
  exists d. split; [exact Hshow|].
  assert (Hview' : view d = navigate ieee ks) by exact Hview.
  split; [exact Hview'|]. split; [exact Htex|].
  rewrite Hview' in Himg.
  destruct (calculate_pixels_fitting ColorBrightness (target_area (navigate ieee ks))
              _ _ Hlen _ Hfit) as (img' & Hrun' & (_ & _ & _ & Hl) & Hw & Hh & Hall & _).
  rewrite Hrun' in Himg. injection Himg as <-.
  rewrite Hw, Hh in Hl.
  rewrite new_image_data_width in Hw, Hl, Hall.
  rewrite new_image_data_height in Hh, Hl, Hall.
  split; [exact Hw|]. split; [exact Hh|]. split; [rewrite Hl; lia|].
  intros p Hp. apply Hall. lia.
Qed.

Lemma screen_shows_the_current_view_witness :
  exists img_data d,
    calculate_pixels Reference.ColorBrightness (new_image_data 2 2)
      (target_area (initial_nav ieee)) roots_of_2 (set_colors 2) = Some img_data /\
    show_image_on_screen Reference.ColorBrightness unit (fun _ => tt) roots_of_2 (set_colors 2)
      img_data (target_area (initial_nav ieee)) [only_up; no_key; only_down] = Some d /\
    calculate_pixels Reference.ColorBrightness (new_image_data 2 2)
      (target_area (view d)) roots_of_2 (set_colors 2) = Some (image d).
Proof.
  destruct (screen_shows_the_current_view Reference.ColorBrightness unit (fun _ => tt)
              roots_of_2 (set_colors 2) ltac:(cbn; lia)
              (new_image_data 2 2) (target_area (initial_nav ieee))
              [only_up; no_key; only_down]
              (new_image_data_fits 2 2 ltac:(lia) ltac:(lia) ltac:(lia)))
    as (img_data & d & Hrun & Hshow & _ & Himg & _).
  exists img_data, d. split_and!; [exact Hrun | exact Hshow | exact Himg].
Defined.

Lemma idle_passes_keep_display_witness :
  display_loop Reference.ColorBrightness unit (fun _ => tt) roots_of_2 (set_colors 2)
    [no_key; no_key]
    {| view := initial_nav ieee; image := new_image_data 2 2; texture := tt |}
  = Some {| view := initial_nav ieee; image := new_image_data 2 2; texture := tt |}.
Proof.
  apply (idle_passes_keep_display Reference.ColorBrightness unit (fun _ => tt)
           roots_of_2 (set_colors 2) [no_key; no_key]).
  repeat constructor.
Defined.

Lemma main_cpp_renders_witness :
  0 < 2 <= INT_MAX /\
  exists d,
    main_cpp Reference.ColorBrightness (fun _ => tt) (fun z => z) 2 [only_up; only_down]
    = Some d /\
    Z.of_nat (length (pixels (image d))) = 512 * 512 * 4.
Proof.
  assert (Hn : 0 < 2 <= INT_MAX) by (unfold INT_MAX; lia).
  split; [exact Hn|].
  destruct (main_cpp_renders Reference.ColorBrightness (fun _ => tt) (fun z => z) 2
              [only_up; only_down] Hn) as (d & Hrun & _ & _ & _ & _ & Hlen & _).
  exists d. split; [exact Hrun | exact Hlen].
Defined.

(** ** The arguments of [main] and the root table *)

(** X20: which arguments make [main] do what: it leaves with -1 exactly when
    there is no argument after the program name or [atoi] of the first one
    is not positive; it runs the C++ back end exactly when there are two
    arguments, the first with a positive [atoi], the second the word [C++];
    every other command line, one with a third argument after [C++]
    among them, runs the ISPC back end. *)
Theorem main_branch_table (atoi : String.string -> Z) (argv : list String.string) :
  let argc := Z.of_nat (length argv) in
  let n := atoi (nth 1 argv String.EmptyString) in
  (Args.main_branch atoi argv = exit_minus_1 <-> argc < 2 \/ n <= 0) /\
  (forall m, Args.main_branch atoi argv = run_cpp m <->
     m = n /\ 0 < n /\ argc = 3 /\ argv !! 2%nat = Some Args.cpp_word) /\
  (forall m, Args.main_branch atoi argv = run_ispc m <->
     m = n /\ 0 < n /\ 2 <= argc /\ (argc = 3 -> argv !! 2%nat <> Some Args.cpp_word)).
Proof.
  cbv zeta. unfold Args.main_branch.
  set (n := atoi (nth 1 argv String.EmptyString)).
  assert (Hthird : Z.of_nat (length argv) = 3 ->
                   (String.eqb (nth 2 argv String.EmptyString) Args.cpp_word = true
                    <-> argv !! 2%nat = Some Args.cpp_word)).
  { intros Hl. destruct argv as [|a0 [|a1 [|a2 [|a3 rest]]]]; cbn in Hl; try lia.
    cbn [nth lookup list_lookup]. rewrite String.eqb_eq.
    split; [intros ->; reflexivity | intros [=]; assumption]. }
  destruct (Z.ltb_spec (Z.of_nat (length argv)) 2) as [Hc|Hc].
  { split_and!.
    - split; [left; exact Hc | reflexivity].
    - intros m. split; [discriminate | lia].
    - intros m. split; [discriminate | lia]. }
  destruct (Z.leb_spec n 0) as [Hn|Hn].
  { split_and!.
    - split; [right; exact Hn | reflexivity].
    - intros m. split; [discriminate | lia].
    - intros m. split; [discriminate | lia]. }
  destruct (Z.eqb_spec (Z.of_nat (length argv)) 3) as [H3|H3]; cbn [andb].
  - specialize (Hthird H3).
    destruct (String.eqb (nth 2 argv String.EmptyString) Args.cpp_word) eqn:Hw.
    + pose proof (proj1 Hthird eq_refl) as Hin. split_and!.
      * split; [discriminate | lia].
      * intros m. split; [intros [= <-]; split_and!; [reflexivity | lia | lia | exact Hin]
                         | intros (-> & _); reflexivity].
      * intros m. split; [discriminate | intros (_ & _ & _ & Hno); destruct (Hno H3 Hin)].
    + assert (Hno : argv !! 2%nat <> Some Args.cpp_word)
        by (intros Hin; apply Hthird in Hin; discriminate).
      split_and!.
      * split; [discriminate | lia].
      * intros m. split; [discriminate | intros (_ & _ & _ & Hin); destruct (Hno Hin)].
      * intros m. split; [intros [= <-]; split_and!; [reflexivity | lia | lia | intros _; exact Hno]
                         | intros (-> & _); reflexivity].
  - split_and!.
    + split; [discriminate | lia].
    + intros m. split; [discriminate | lia].
    + intros m. split; [intros [= <-]; split_and!; [reflexivity | lia | lia | lia]
                       | intros (-> & _); reflexivity].
Qed.

(** X21: [calculate_roots n] has [n] entries and its loop overwrites every
    one of them: entry [i] holds the two parts of [std::exp] at the argument
    built from [i] and [n]; the first argument is the complex zero. *)
Theorem calculate_roots_table (cexp : complex -> complex) (n : nat) :
  Z.of_nat n <= INT_MAX ->
  length (calculate_roots cexp n) = n /\
  (forall i, (i < n)%nat ->
     calculate_roots cexp n !! i
     = Some {| v0 := re (cexp (root_argument (Z.of_nat i) (Z.of_nat n)));
               v1 := im (cexp (root_argument (Z.of_nat i) (Z.of_nat n))) |}) /\
  ((0 < n)%nat -> calculate_roots cexp n !! 0%nat = Some (float2_of (cexp (z_of 0 0)))).
Proof.
  intros Hn.
  destruct (calculate_roots_entries cexp n Hn) as (Hlen & Hent & Hzero).
  split; [exact Hlen|]. split; [exact Hent|].
  intros Hpos. rewrite (Hent 0%nat Hpos). change (Z.of_nat 0) with 0.
  rewrite (Hzero Hpos). reflexivity.
Qed.

Lemma calculate_roots_table_witness :
  Z.of_nat 3 <= INT_MAX /\
  length (calculate_roots (fun z => z) 3) = 3%nat /\
  calculate_roots (fun z => z) 3 !! 0%nat = Some (float2_of (z_of 0 0)).
Proof.
  assert (Hn : Z.of_nat 3 <= INT_MAX) by (unfold INT_MAX; lia).
  split; [exact Hn|].
  destruct (calculate_roots_table (fun z => z) 3 Hn) as (Hlen & _ & Hzero).
  split; [exact Hlen | exact (Hzero ltac:(lia))].
Defined.
